(** * Facette: catalog and RRD connector

    A shallow embedding of [facette/backend/catalog.go] (package [backend])
    and of the RRD connector (package [connector]), with the properties of
    the catalog registry, the discovery pass and the query engine.

    Go values are carried as follows.
    - [string] is [String.string]; a [map[string]T] is a [gmap string T].
    - An [error] is [option string]: [None] is [nil], [Some msg] an error
      whose [Error()] text is [msg].
    - A run-time panic (nil dereference, index out of range, a panicking
      library call) is the [Panic] outcome of [result].
    - Pointers to structs stored in the catalog maps always come from a
      composite literal ([&Origin{...}] and the like), so the maps carry
      the structs themselves; a function that mutates through a pointer
      returns the new value next to its result. *)

From stdpp Require Import gmap strings list fin_maps.
From Stdlib Require Import ZArith Ascii String DecimalString Floats.
From Stdlib Require QArith DecimalPos DecimalN.

Local Open Scope string_scope.

(** ** Outcomes *)

Abbreviation error := (option string).

Inductive result (A : Type) : Type :=
| Ret (a : A)
| Panic (msg : string).
Arguments Ret {A} a.
Arguments Panic {A} msg.

Definition rbind {A B} (r : result A) (k : A → result B) : result B :=
  match r with
  | Ret a => k a
  | Panic msg => Panic msg
  end.

Notation "x ←! r ; k" := (rbind r (λ x, k))
  (at level 20, r at level 100, k at level 200, right associativity,
   format "x  ←!  r ;  '/' k").

(** [log.Println]: the log is the list of the lines written so far. *)
Definition Println (log : list string) (line : string) : list string :=
  app log [line].

Definition is_Ret {A} (r : result A) : bool :=
  match r with Ret _ => true | Panic _ => false end.

(** ** Strings and formatting *)

(** [strconv.Itoa], and the [%d] verb of [fmt.Sprintf]. *)
Definition Itoa (n : Z) : string := NilZero.string_of_int (Z.to_int n).

(** [s[n:]] on a Go string (a sequence of bytes): out of range when [n]
    exceeds the length. *)
Fixpoint slice_from (n : nat) (s : string) : result string :=
  match n, s with
  | O, _ => Ret s
  | S n', String _ rest => slice_from n' rest
  | S _, EmptyString => Panic "slice bounds out of range"
  end.

(** [l[i]] on a slice. *)
Definition index {A} (l : list A) (i : nat) : result A :=
  match l !! i with
  | Some a => Ret a
  | None => Panic "index out of range"
  end.

(** The text before and after the first [sep] of [s], when it has one. *)
Fixpoint cut_at (sep : ascii) (s : string) : option (string * string) :=
  match s with
  | EmptyString => None
  | String c rest =>
    if Ascii.eqb c sep then Some (EmptyString, rest)
    else match cut_at sep rest with
         | Some (a, b) => Some (String c a, b)
         | None => None
         end
  end.

(** [strings.SplitN(s, ",", n)] for [n >= 0]: at most [n] pieces, the last
    one being the unsplit remainder. *)
Fixpoint SplitN (s : string) (n : nat) : list string :=
  match n with
  | O => []
  | S O => [s]
  | S n' =>
    match cut_at "," s with
    | Some (a, b) => a :: SplitN b n'
    | None => [s]
    end
  end.

(** The number of commas of [s]. *)
Fixpoint count_commas (s : string) : nat :=
  match s with
  | EmptyString => 0
  | String c rest =>
    if Ascii.eqb c "," then S (count_commas rest) else count_commas rest
  end.

(** Whether [s] is made of decimal digits. *)
Definition is_digit (c : ascii) : bool :=
  match c with
  | "0" | "1" | "2" | "3" | "4" | "5" | "6" | "7" | "8" | "9" => true
  | _ => false
  end%char.

Fixpoint all_digits (s : string) : bool :=
  match s with
  | EmptyString => true
  | String c rest => is_digit c && all_digits rest
  end.

(** [strings.Join(l, ",")]. *)
Definition Join (l : list string) : string := String.concat "," l.

(** ** float64 *)

Module Float64.

Local Open Scope Z_scope.

(** A [float64] is the IEEE 754 binary64 datum of [SpecFloat]: a signed
    zero, an infinity, NaN, or [(-1)^s * m * 2^e]. *)
Abbreviation float64 := spec_float.

Definition NaN : float64 := S754_nan.

(** The value of a finite [x] is [Fnum x * 2 ^ Fexp x]. *)
Definition Fnum (x : float64) : Z :=
  match x with
  | S754_finite s m _ => if s then Zneg m else Zpos m
  | _ => 0
  end.

Definition Fexp (x : float64) : Z :=
  match x with
  | S754_finite _ _ e => e
  | _ => 0
  end.

Definition is_finite (x : float64) : bool :=
  match x with
  | S754_zero _ | S754_finite _ _ _ => true
  | _ => false
  end.

(** [x != 0]: false on both zeros, true on everything else, NaN included. *)
Definition neq0 (x : float64) : bool :=
  match x with
  | S754_zero _ => false
  | _ => true
  end.

Definition min_int64 : Z := - 2 ^ 63.
Definition max_int64 : Z := 2 ^ 63 - 1.

Definition in_int64 (n : Z) : bool := (min_int64 <=? n) && (n <=? max_int64).

(** The integer part of a finite [x], rounded toward zero. *)
Definition trunc (x : float64) : Z :=
  match x with
  | S754_finite s m e =>
    let a := Z.shiftl (Zpos m) e in
    if s then - a else a
  | _ => 0
  end.

(** [int(x)]: the conversion truncates toward zero. When the result does
    not fit the 64-bit [int], or [x] is an infinity or NaN, Go leaves the
    value to the implementation; the compiler's amd64 target yields the
    smallest [int], which is the value used here. *)
Definition to_int (x : float64) : Z :=
  if is_finite x && in_int64 (trunc x) then trunc x else min_int64.

(** [float64(n)] for an [int]: the nearest binary64, ties to the even
    mantissa. [k] is the number of low bits that do not fit the 53-bit
    mantissa. *)
Definition of_int (n : Z) : float64 :=
  if n =? 0 then S754_zero false
  else
    let a := Z.abs n in
    let k := Z.log2 a + 1 - 53 in
    if k <=? 0 then S754_finite (n <? 0) (Z.to_pos a) 0
    else
      let q := Z.shiftr a k in
      let r := a - Z.shiftl q k in
      let half := 2 ^ (k - 1) in
      let q' := if (half <? r) || ((half =? r) && Z.odd q) then q + 1 else q in
      S754_finite (n <? 0) (Z.to_pos q') k.

(** [x - y]: the subtraction of IEEE 754 on binary64, which has a
    mantissa of [prec = 53] bits and the exponent [emax = 1024] for the
    infinities. *)
Definition sub (x y : float64) : float64 := SFsub prec emax x y.

(** Whether two numbers differ in value: for finite ones, the two
    mantissas brought to the smaller exponent differ; anything differs
    from an infinity or NaN. *)
Definition sub_neq0 (x y : float64) : bool :=
  if is_finite x && is_finite y then
    let e := Z.min (Fexp x) (Fexp y) in
    negb (Fnum x * 2 ^ (Fexp x - e) =? Fnum y * 2 ^ (Fexp y - e))
  else true.

(** A finite [x] as the format has it: a mantissa of 53 bits at most
    and an exponent between those of the smallest subnormal and of the
    largest finite number. *)
Definition is_binary64 (x : float64) : bool :=
  match x with
  | S754_finite _ m e => (Zpos m <? 2 ^ 53) && (-1074 <=? e) && (e <=? 971)
  | _ => true
  end.

(** Whether [x] is a whole number: finite, with an integer value. *)
Definition is_whole (x : float64) : bool :=
  match x with
  | S754_zero _ => true
  | S754_finite _ m e => (0 <=? e) || (Zpos m mod 2 ^ (- e) =? 0)
  | _ => false
  end.

(** *** The [%.<prec>f] verb *)

(** [num / den] rounded to the nearest integer, ties to even. *)
Definition round_half_even (num den : Z) : Z :=
  let q := num / den in
  let r := num mod den in
  if (den <? 2 * r) || ((den =? 2 * r) && Z.odd q) then q + 1 else q.

(** [|x| * 10 ^ prec], correctly rounded to an integer. *)
Definition scaled (prec : nat) (x : float64) : Z :=
  match x with
  | S754_finite _ m e =>
    if 0 <=? e then Zpos m * 2 ^ e * 10 ^ Z.of_nat prec
    else round_half_even (Zpos m * 10 ^ Z.of_nat prec) (2 ^ (- e))
  | _ => 0
  end.

Definition digits (n : Z) : string := NilZero.string_of_uint (N.to_uint (Z.to_N n)).

Fixpoint zeros (n : nat) : string :=
  match n with
  | O => ""
  | S n' => String "0" (zeros n')
  end.

Definition pad_left (width : nat) (s : string) : string :=
  zeros (width - String.length s)%nat +:+ s.

(** The decimal text of [n / 10 ^ prec] with [prec] decimals. *)
Definition fixed (prec : nat) (n : Z) : string :=
  let p := 10 ^ Z.of_nat prec in
  digits (n / p) +:+
  match prec with
  | O => ""
  | S _ => "." +:+ pad_left prec (digits (n mod p))
  end.

Definition sign_text (s : bool) : string := if s then "-" else "".

(** [fmt.Sprintf("%.<prec>f", x)]; [%f] is [prec = 6]. *)
Definition FormatF (prec : nat) (x : float64) : string :=
  match x with
  | S754_nan => "NaN"
  | S754_infinity s => if s then "-Inf" else "+Inf"
  | S754_zero s => sign_text s +:+ fixed prec 0
  | S754_finite s _ _ => sign_text s +:+ fixed prec (scaled prec x)
  end.

End Float64.

Export Float64.

(** ** Package backend: the catalog *)

Module Backend.

(** Modelled from the spec: [Metric], [Source] and [Origin] are declared
    in a file that is not part of the sources. A Metric has a name, the
    name the backend knows it by, and a back-reference to its Source,
    kept here as the name of that Source; a Source has a name and a map
    from names to Metrics. *)
Record Metric := mkMetric {
  Metric_Name : string;
  Metric_OriginalName : string;
  Metric_source : string        (* name of the owning Source *)
}.

Record Source := mkSource {
  Source_Name : string;
  Metrics : gmap string Metric
}.

Section Catalog.

(** The connector behind an Origin is an interface value and the
    configuration a pointer to [config.Config]; the catalog never looks
    inside either of them. *)
Variable Connector : Type.
Variable Config : Type.

(** Modelled from the spec: an Origin has a name, a map from names to
    Sources and its connector; its back-reference to the catalog is not
    followed by the code of this file. *)
Record Origin := mkOrigin {
  Origin_Name : string;
  Sources : gmap string Source;
  Origin_Connector : option Connector
}.

Record Catalog := mkCatalog {
  Catalog_Config : Config;
  Origins : gmap string Origin;
  Updated : Z;
  debugLevel : Z
}.

Definition set_Origins (c : Catalog) (o : gmap string Origin) : Catalog :=
  mkCatalog (Catalog_Config c) o (Updated c) (debugLevel c).

Definition set_Updated (c : Catalog) (t : Z) : Catalog :=
  mkCatalog (Catalog_Config c) (Origins c) t (debugLevel c).

(** *** AddOrigin *)

(** The registry of the backend types. A registered constructor receives
    the fresh Origin and the raw settings; it fills the Origin in and
    reports an error. *)
Variable BackendHandlers : gmap string (Origin → gmap string string → Origin * error).

Definition AddOrigin (catalog : Catalog) (name : string)
    (config : gmap string string) : Catalog * (option Origin * error) :=
  let origin := mkOrigin name ∅ None in
  match config !! "type" with
  | None => (catalog, (None, Some "missing backend type"))
  | Some ty =>
    match BackendHandlers !! ty with
    | None => (catalog, (None, Some ("unknown `" +:+ ty +:+ "' backend type")))
    | Some handler =>
      let '(origin, err) := handler origin config in
      match err with
      | Some e => (catalog, (None, Some e))
      | None =>
        (set_Origins catalog (<[name := origin]> (Origins catalog)),
         (Some origin, None))
      end
    end
  end.

(** *** MetricExists and GetMetric *)

Definition MetricExists (catalog : Catalog) (origin source name : string) : bool :=
  match Origins catalog !! origin with
  | Some o =>
    match Sources o !! source with
    | Some s =>
      match Metrics s !! name with
      | Some _ => true
      | None => false
      end
    | None => false
    end
  | None => false
  end.

(** [catalog.Origins[origin].Sources[source].Metrics[name]]: a missing
    origin or source is a nil pointer, and selecting a field of it
    panics; a missing metric is the nil [*Metric]. *)
Definition GetMetric (catalog : Catalog) (origin source name : string)
    : result (option Metric) :=
  if negb (MetricExists catalog origin source name) then Ret None
  else
    match Origins catalog !! origin with
    | None => Panic "nil pointer dereference"
    | Some o =>
      match Sources o !! source with
      | None => Panic "nil pointer dereference"
      | Some s => Ret (Metrics s !! name)
      end
    end.

(** *** Update *)

(** [Origin.Update] is declared with [Origin], outside the sources, and
    is a parameter here: it refreshes the Origin in place through its
    connector and reports an error. *)
Variable Origin_Update : Origin → Origin * error.

(** The loop [for _, origin := range catalog.Origins]. Go leaves the
    order of a map range unspecified, so the order of the visit is an
    argument: the keys of the map in the order the range yields them.
    The state of the loop is the map (the origins are updated in place),
    the log, [err] and [success]. *)
Fixpoint update_origins (order : list string) (origins : gmap string Origin)
    (log : list string) (err : error) (success : bool)
    : gmap string Origin * list string * error * bool :=
  match order with
  | [] => (origins, log, err, success)
  | name :: rest =>
    match origins !! name with
    | None => update_origins rest origins log err success
    | Some origin =>
      let '(origin', e) := Origin_Update origin in
      let origins' := <[name := origin']> origins in
      match e with
      | Some msg =>
        update_origins rest origins' (Println log ("ERROR: " +:+ msg)) e false
      | None => update_origins rest origins' log e success
      end
    end
  end.

Definition Update (order : list string) (now : Z) (catalog : Catalog)
    : Catalog * list string * error :=
  let log := Println [] "INFO: catalog update started" in
  let '(origins, log, err, success) :=
    update_origins order (Origins catalog) log None true in
  let catalog := set_Origins catalog origins in
  if negb success then
    (catalog, Println log "INFO: catalog update failed", err)
  else
    (set_Updated catalog now, Println log "INFO: catalog update completed", None).

(** Whether the refresh of the origin stored under [name] succeeds. *)
Definition refresh_ok (origins : gmap string Origin) (name : string) : bool :=
  match origins !! name with
  | Some o => bool_decide ((Origin_Update o).2 = None)
  | None => true
  end.

Definition NewCatalog (config : Config) (debugLevel : Z) : Catalog :=
  mkCatalog config ∅ 0 debugLevel.

End Catalog.

Arguments mkOrigin {Connector} _ _ _.
Arguments Origin_Name {Connector} _.
Arguments Sources {Connector} _.
Arguments Origin_Connector {Connector} _.
Arguments mkCatalog {Connector Config} _ _ _ _.
Arguments Catalog_Config {Connector Config} _.
Arguments Origins {Connector Config} _.
Arguments Updated {Connector Config} _.
Arguments debugLevel {Connector Config} _.
Arguments set_Origins {Connector Config} _ _.
Arguments set_Updated {Connector Config} _ _.
Arguments AddOrigin {Connector Config} _ _ _ _.
Arguments MetricExists {Connector Config} _ _ _ _.
Arguments GetMetric {Connector Config} _ _ _ _.
Arguments update_origins {Connector} _ _ _ _ _ _.
Arguments Update {Connector Config} _ _ _ _.
Arguments refresh_ok {Connector} _ _ _.
Arguments NewCatalog {Connector Config} _ _.

End Backend.

(** ** Package connector: the RRD connector *)

Module Connector.

Import Backend.

(** *** Types declared outside the connector file *)

(** Modelled from the spec: [GroupQuery], [Serie], [PlotResult] and the
    constants of the aggregation operator are declared in files that are
    not part of the sources. The operator is an [int] with three named
    constants, [None], [Avg] and [Sum]; a value that is none of them
    keeps its integer. *)
Inductive OperGroupType : Type :=
| OperGroupTypeNone
| OperGroupTypeAvg
| OperGroupTypeSum
| OperGroupTypeUnknown (code : Z).

#[global] Instance OperGroupType_eq_dec : EqDecision OperGroupType.
Proof. solve_decision. Defined.

Record Serie := mkSerie {
  Serie_Name : string;
  Serie_Metric : option Metric;
  Serie_Scale : float64
}.

Record GroupQuery := mkGroupQuery {
  Query_Name : string;
  Query_Type : OperGroupType;
  Query_Series : list Serie;
  Query_Scale : float64
}.

Definition set_Type (q : GroupQuery) (t : OperGroupType) : GroupQuery :=
  mkGroupQuery (Query_Name q) t (Query_Series q) (Query_Scale q).

(** [types.PlotValue] is a [float64]. *)
Record PlotResult := mkPlotResult {
  Plots : list float64;
  Info : gmap string float64
}.

(** *** Types of the connector *)

Record RRDMetric := mkRRDMetric {
  Dataset : string;
  FilePath : string
}.

(** [origin] is a back-reference; the connector uses it for the discovery
    channel of the Origin only, which the discovery state carries. *)
Record RRDConnectorHandler := mkHandler {
  Path : string;
  Pattern : string;
  metrics : gmap string (gmap string RRDMetric)
}.

Definition set_metrics (h : RRDConnectorHandler)
    (m : gmap string (gmap string RRDMetric)) : RRDConnectorHandler :=
  mkHandler (Path h) (Pattern h) m.

(** *** The discovery channel *)

(** [origin.inputChan]: the pairs sent so far, and how many times the
    channel was closed. The consumer drains the channel while the walk
    runs, so a send on an open channel goes through. *)
Record Chan := mkChan {
  sent : list (string * string);
  closes : nat
}.

Definition chan_send (c : Chan) (v : string * string) : result Chan :=
  match closes c with
  | O => Ret (mkChan (app (sent c) [v]) (closes c))
  | S _ => Panic "send on closed channel"
  end.

Definition chan_close (c : Chan) : result Chan :=
  match closes c with
  | O => Ret (mkChan (sent c) 1)
  | S _ => Panic "close of closed channel"
  end.

(** *** The collaborators *)

(** A compiled regular expression, as far as the connector looks at it. *)
Record Regexp := mkRegexp {
  SubexpNames : list string;
  FindStringSubmatch : string → list string
}.

(** The named capture groups of a pattern: the names that are not empty. *)
Definition named_groups (re : Regexp) : gset string :=
  list_to_set (List.filter (λ key, negb (String.eqb key "")) (SubexpNames re)).

(** One call of the walk function: the path, [fileInfo.Mode()] and the
    error the walker met on that entry. *)
Record WalkEntry := mkWalkEntry {
  entry_path : string;
  entry_mode : Z;
  entry_err : error
}.

(** [os.ModeType]: the bits of a [FileMode] that say an entry is not a
    regular file (directory, symlink, named pipe, socket, device,
    character device, irregular). *)
Definition os_ModeType : Z := 0x8F280000.

(** The calls of the storage engine's grapher and exporter, in order. *)
Inductive GraphCmd : Type :=
| GDef (vname file ds cf : string)
| GCDef (vname rpn : string)
| GVDef (vname rpn : string)
| GPrint (vname format : string).

Inductive XportCmd : Type :=
| XDef (vname file ds cf : string)
| XCDef (vname rpn : string)
| XXportDef (vname legend : string).

Record XportResult := mkXportResult {
  Legends : list string;
  RowCnt : nat;
  ValueAt : nat → nat → float64
}.

(** [rrd.GraphInfo], of which only [Print] is read. *)
Record GraphInfo := mkGraphInfo {
  Print_ : list string
}.

(** The state a discovery pass works on. *)
Record State := mkState {
  handler : RRDConnectorHandler;
  inputChan : Chan;
  log : list string
}.

Section RRD.

(** [regexp.Compile]: [None] when the pattern is not a valid regular
    expression, in which case [regexp.MustCompile] panics. *)
Variable regexp_Compile : string → option Regexp.

(** [rrd.Info(filePath)]: the dataset names under ["ds.index"] (in the
    order the range over that map yields them) when the key is there, and
    the error. *)
Variable rrd_Info : string → option (list string) * error.

(** [xport.Xport(start, end, step)] and [graph.Graph(start, end)], as
    functions of the calls made on the exporter and the grapher before. *)
Variable rrd_Xport : list XportCmd → Z → Z → Z → XportResult * error.
Variable rrd_Graph : list GraphCmd → Z → Z → GraphInfo * error.

(** [strconv.ParseFloat(s, 64)]: [None] stands for a non-nil error. *)
Variable strconv_ParseFloat : string → option float64.

(** *** Update *)

(** The loop over [re.SubexpNames()] that validates the keywords:
    [groups] is the set of the keys mapped to [true]. *)
Fixpoint validate_keywords (names : list string) (groups : gset string)
    : gset string + string :=
  match names with
  | [] => inl groups
  | key :: rest =>
    if String.eqb key "" then validate_keywords rest groups
    else if String.eqb key "source" || String.eqb key "metric"
    then validate_keywords rest ({[key]} ∪ groups)
    else inr ("invalid pattern keyword `" +:+ key +:+ "'")
  end.

(** The loop over the datasets of one file. *)
Fixpoint register_datasets (dsNames : list string) (filePath source metric : string)
    (st : State) : result State :=
  match dsNames with
  | [] => Ret st
  | dsName :: rest =>
    let metricName := metric +:+ "/" +:+ dsName in
    c ←! chan_send (inputChan st) (source, metricName);
    let forSource := default ∅ (metrics (handler st) !! source) in
    let m := <[source := <[metricName := mkRRDMetric dsName filePath]> forSource]>
               (metrics (handler st)) in
    register_datasets rest filePath source metric
      (mkState (set_metrics (handler st) m) c (log st))
  end.

Definition walkFunc (re : Regexp) (st : State) (filePath : string) (mode : Z)
    (err : error) : result (State * error) :=
  match err with
  | Some e => Ret (st, Some e)
  | None =>
    if negb (Z.land mode os_ModeType =? 0)%Z then Ret (st, None)
    else
      rel ←! slice_from (String.length (Path (handler st)) + 1) filePath;
      let submatch := FindStringSubmatch re rel in
      if (List.length submatch =? 0)%nat then
        Ret (mkState (handler st) (inputChan st)
               (Println (log st)
                  ("WARNING: file `" +:+ filePath +:+ "' does not match pattern")),
             None)
      else
        name1 ←! index (SubexpNames re) 1;
        sm ←! (if String.eqb name1 "source"
               then (s ←! index submatch 1; m ←! index submatch 2; Ret (s, m))
               else (s ←! index submatch 2; m ←! index submatch 1; Ret (s, m)));
        let '(source, metric) := sm in
        let ms :=
          match metrics (handler st) !! source with
          | Some _ => metrics (handler st)
          | None => <[source := ∅]> (metrics (handler st))
          end in
        let st := mkState (set_metrics (handler st) ms) (inputChan st) (log st) in
        let '(info, err) := rrd_Info filePath in
        match err with
        | Some e => Ret (st, Some e)
        | None =>
          match info with
          | Some dsNames =>
            st ←! register_datasets dsNames filePath source metric st;
            Ret (st, None)
          | None => Ret (st, None)
          end
        end
  end.

(** Modelled from the spec: [utils.WalkDir], the recursive walk of the
    root directory, is not part of the connector file. It calls the walk
    function on the entries it visits, in order, and an error returned by
    the walk function aborts the walk at once and is the result. The
    entries the walker visits under a root are the argument [visits]. *)
Fixpoint WalkDir (visits : list WalkEntry)
    (walkFn : State → string → Z → error → result (State * error))
    (st : State) : result (State * error) :=
  match visits with
  | [] => Ret (st, None)
  | v :: rest =>
    r ←! walkFn st (entry_path v) (entry_mode v) (entry_err v);
    match r with
    | (st, Some e) => Ret (st, Some e)
    | (st, None) => WalkDir rest walkFn st
    end
  end.

Definition Update (visits : list WalkEntry) (st : State) : result (State * error) :=
  match regexp_Compile (Pattern (handler st)) with
  | None => Panic "regexp: Compile: error parsing regexp"
  | Some re =>
    match validate_keywords (SubexpNames re) ∅ with
    | inr msg => Ret (st, Some msg)
    | inl groups =>
      if negb (bool_decide ("source" ∈ groups)) then
        Ret (st, Some "missing pattern keyword `source'")
      else if negb (bool_decide ("metric" ∈ groups)) then
        Ret (st, Some "missing pattern keyword `metric'")
      else
        r ←! WalkDir visits (walkFunc re) st;
        match r with
        | (st, Some e) => Ret (st, Some e)
        | (st, None) =>
          c ←! chan_close (inputChan st);
          Ret (mkState (handler st) c (log st), None)
        end
    end
  end.

(** *** The query engine *)

(** The [Print] request of one percentile: two decimals unless the
    percentile equals its integer part. *)
Definition percentile_Print (vname itemName : string) (percentile : float64)
    : GraphCmd :=
  if neq0 (sub percentile (of_int (to_int percentile))) then
    GPrint vname (itemName +:+ "," +:+ FormatF 2 percentile +:+ "th,%lf")
  else
    GPrint vname (itemName +:+ "," +:+ FormatF 0 percentile +:+ "th,%lf").

(** The loop over [percentiles] of [rrdSetGraph]. *)
Fixpoint percentile_requests (serieName itemName : string) (index : nat)
    (percentiles : list float64) : list GraphCmd :=
  match percentiles with
  | [] => []
  | percentile :: rest =>
    let idx := Itoa (Z.of_nat index) in
    GCDef (serieName +:+ "-cdef" +:+ idx)
          (serieName +:+ ",UN,0," +:+ serieName +:+ ",IF")
    :: GVDef (serieName +:+ "-vdef" +:+ idx)
          (serieName +:+ "-cdef" +:+ idx +:+ "," +:+ FormatF 6 percentile +:+ ",PERCENT")
    :: percentile_Print (serieName +:+ "-vdef" +:+ idx) itemName percentile
    :: percentile_requests serieName itemName (S index) rest
  end.

Definition rrdSetGraph (graph : list GraphCmd) (serieName itemName : string)
    (percentiles : list float64) : list GraphCmd :=
  app graph
    (GVDef (serieName +:+ "-min") (serieName +:+ ",MINIMUM")
     :: GPrint (serieName +:+ "-min") (itemName +:+ ",min,%lf")
     :: GVDef (serieName +:+ "-avg") (serieName +:+ ",AVERAGE")
     :: GPrint (serieName +:+ "-avg") (itemName +:+ ",avg,%lf")
     :: GVDef (serieName +:+ "-max") (serieName +:+ ",MAXIMUM")
     :: GPrint (serieName +:+ "-max") (itemName +:+ ",max,%lf")
     :: GVDef (serieName +:+ "-last") (serieName +:+ ",LAST")
     :: GPrint (serieName +:+ "-last") (itemName +:+ ",last,%lf")
     :: percentile_requests serieName itemName 0 percentiles).

(** [handler.metrics[source][name]] followed by a field selection: a
    missing entry is a nil pointer and the selection panics. *)
Definition rrd_metric (h : RRDConnectorHandler) (m : Metric) : result RRDMetric :=
  match metrics h !! Metric_source m with
  | None => Panic "nil pointer dereference"
  | Some forSource =>
    match forSource !! Metric_OriginalName m with
    | None => Panic "nil pointer dereference"
    | Some rm => Ret rm
    end
  end.

(** What [rrdGetData] builds before it calls the storage engine. [xport]
    stays empty on an info-only request, where no exporter exists. *)
Record Plan := mkPlan {
  graph : list GraphCmd;
  xport : list XportCmd;
  series : gmap string string
}.

(** [expr] multiplied by [scale] when [scale != 0], else [expr] itself. *)
Definition scaled_rpn (expr : string) (scale : float64) : string :=
  if neq0 scale then expr +:+ "," +:+ FormatF 6 scale +:+ ",*" else expr.

(** The loop of the [OperGroupTypeNone] case. *)
Fixpoint plan_none (h : RRDConnectorHandler) (query : GroupQuery)
    (percentiles : list float64) (infoOnly : bool) (l : list Serie)
    (count : nat) (p : Plan) : result Plan :=
  match l with
  | [] => Ret p
  | serie :: rest =>
    match Serie_Metric serie with
    | None => plan_none h query percentiles infoOnly rest count p
    | Some metric =>
      let serieTemp := "serie" +:+ Itoa (Z.of_nat count) in
      let serieName := Serie_Name serie in
      let count := S count in
      rm ←! rrd_metric h metric;
      let orig1 := scaled_rpn (serieTemp +:+ "-orig0") (Serie_Scale serie) in
      let final := scaled_rpn (serieTemp +:+ "-orig1") (Query_Scale query) in
      let g := app (graph p)
        [GDef (serieTemp +:+ "-orig0") (FilePath rm) (Dataset rm) "AVERAGE";
         GCDef (serieTemp +:+ "-orig1") orig1;
         GCDef serieTemp final] in
      let g := rrdSetGraph g serieTemp serieName percentiles in
      let x :=
        if infoOnly then xport p
        else app (xport p)
          [XDef (serieTemp +:+ "-orig0") (FilePath rm) (Dataset rm) "AVERAGE";
           XCDef (serieTemp +:+ "-orig1") orig1;
           XCDef serieTemp final;
           XXportDef serieTemp serieTemp] in
      plan_none h query percentiles infoOnly rest count
        (mkPlan g x (<[serieTemp := serieName]> (series p)))
    end
  end.

(** The loop of the [OperGroupTypeAvg], [OperGroupTypeSum] case, which
    defines the inputs and grows [stack]. *)
Fixpoint plan_fold (h : RRDConnectorHandler) (serieName : string)
    (infoOnly : bool) (l : list Serie) (index : nat)
    (g : list GraphCmd) (x : list XportCmd) (stack : list string)
    : result (list GraphCmd * list XportCmd * list string) :=
  match l with
  | [] => Ret (g, x, stack)
  | serie :: rest =>
    match Serie_Metric serie with
    | None => plan_fold h serieName infoOnly rest (S index) g x stack
    | Some metric =>
      let serieTemp := serieName +:+ "-tmp" +:+ Itoa (Z.of_nat index) in
      rm ←! rrd_metric h metric;
      let g := app g [GDef serieTemp (FilePath rm) (Dataset rm) "AVERAGE"] in
      let x := if infoOnly then x
               else app x [XDef serieTemp (FilePath rm) (Dataset rm) "AVERAGE"] in
      let stack :=
        match stack with
        | [] => [serieTemp]
        | _ => app stack [serieTemp; "+"]
        end in
      plan_fold h serieName infoOnly rest (S index) g x stack
    end
  end.

Definition plan_group (h : RRDConnectorHandler) (query : GroupQuery)
    (percentiles : list float64) (infoOnly : bool) : result Plan :=
  let serieName := "serie" +:+ Itoa 0 in
  r ←! plan_fold h serieName infoOnly (Query_Series query) 0 [] [] [];
  let '(g, x, stack) := r in
  let stack :=
    match Query_Type query with
    | OperGroupTypeAvg =>
      app stack [Itoa (Z.of_nat (List.length (Query_Series query))); "/"]
    | _ => stack
    end in
  let final := scaled_rpn (serieName +:+ "-orig") (Query_Scale query) in
  let g := app g [GCDef (serieName +:+ "-orig") (Join stack); GCDef serieName final] in
  let g := rrdSetGraph g serieName (Query_Name query) percentiles in
  let x :=
    if infoOnly then x
    else app x [XCDef (serieName +:+ "-orig") (Join stack);
                XCDef serieName final;
                XXportDef serieName serieName] in
  Ret (mkPlan g x {[serieName := Query_Name query]}).

(** [rrdParseInfo] works on the result map in place. *)
Fixpoint rrdParseInfo (prints : list string) (data : gmap string PlotResult)
    : result (gmap string PlotResult) :=
  match prints with
  | [] => Ret data
  | value :: rest =>
    let chunks := SplitN value 3 in
    c2 ←! index chunks 2;
    let chunkFloat := default NaN (strconv_ParseFloat c2) in
    c0 ←! index chunks 0;
    let data :=
      match data !! c0 with
      | None => <[c0 := mkPlotResult [] ∅]> data
      | Some _ => data
      end in
    c1 ←! index chunks 1;
    match data !! c0 with
    | None => Panic "nil pointer dereference"
    | Some pr =>
      rrdParseInfo rest
        (<[c0 := mkPlotResult (Plots pr) (<[c1 := chunkFloat]> (Info pr))]> data)
    end
  end.

(** The loop over [data.Legends] that stores the exported samples. *)
Fixpoint store_plots (xr : XportResult) (series : gmap string string)
    (legends : list string) (index : nat) (result : gmap string PlotResult)
    : gmap string PlotResult :=
  match legends with
  | [] => result
  | serieName :: rest =>
    let key := default "" (series !! serieName) in
    store_plots xr series rest (S index)
      (<[key := mkPlotResult (ValueAt xr index <$> seq 0 (RowCnt xr)) ∅]> result)
  end.

(** The end of [rrdGetData], after the switch on [query.Type]: the
    export of the plots unless the request is info-only, then the graph
    information and its parsing. *)
Definition fetch (p : Plan) (startTime endTime step : Z) (infoOnly : bool)
    : result (option (gmap string PlotResult) * error) :=
  let exported :=
    if infoOnly then inl ∅
    else
      let '(data, err) := rrd_Xport (xport p) startTime endTime step in
      match err with
      | Some e => inr e
      | None => inl (store_plots data (series p) (Legends data) 0 ∅)
      end in
  match exported with
  | inr e => Ret (None, Some e)
  | inl result =>
    let '(graphInfo, err) := rrd_Graph (graph p) startTime endTime in
    match err with
    | Some e => Ret (None, Some e)
    | None =>
      result ←! rrdParseInfo (Print_ graphInfo) result;
      Ret (Some result, None)
    end
  end.

(** [rrdGetData] writes [query.Type] through the pointer it is given:
    the first component of the outcome is the query as the caller sees
    it after the call, whatever the call returns. *)
Definition rrdGetData (h : RRDConnectorHandler) (query : GroupQuery)
    (startTime endTime step : Z) (percentiles : list float64) (infoOnly : bool)
    : GroupQuery * result (option (gmap string PlotResult) * error) :=
  match Query_Series query with
  | [] => (query, Ret (None, Some "group has no series"))
  | _ :: _ =>
    let query :=
      if bool_decide (Query_Type query ≠ OperGroupTypeNone)
         && (List.length (Query_Series query) =? 1)%nat
      then set_Type query OperGroupTypeNone
      else query in
    (query,
     match Query_Type query with
     | OperGroupTypeNone =>
       p ←! plan_none h query percentiles infoOnly (Query_Series query) 0
              (mkPlan [] [] ∅);
       fetch p startTime endTime step infoOnly
     | OperGroupTypeAvg | OperGroupTypeSum =>
       p ←! plan_group h query percentiles infoOnly;
       fetch p startTime endTime step infoOnly
     | OperGroupTypeUnknown code =>
       Ret (None, Some ("unknown `" +:+ Itoa code +:+ "' operator type"))
     end)
  end.

Definition GetPlots (h : RRDConnectorHandler) (query : GroupQuery)
    (startTime endTime step : Z) (percentiles : list float64)
    : GroupQuery * result (option (gmap string PlotResult) * error) :=
  rrdGetData h query startTime endTime step percentiles false.

(** [time.Minute], a [Duration] in nanoseconds. *)
Definition time_Minute : Z := 60 * 1000000000.

Definition GetValue (h : RRDConnectorHandler) (query : GroupQuery)
    (refTime : Z) (percentiles : list float64)
    : GroupQuery * result (option (gmap string (gmap string float64)) * error) :=
  let '(query, r) :=
    rrdGetData h query (refTime + (-1) * time_Minute) refTime time_Minute
      percentiles true in
  (query,
   r ←! r;
   match r with
   | (_, Some e) => Ret (None, Some e)
   | (data, None) => Ret (Some (Info <$> default ∅ data), None)
   end).

End RRD.

(** The constructor that [init] registers under ["rrd"]. *)
Definition rrd_constructor
    (origin : Origin RRDConnectorHandler)
    (config : gmap string string) : Origin RRDConnectorHandler * error :=
  match config !! "path" with
  | None => (origin, Some "missing `path' mandatory connector setting")
  | Some path =>
    match config !! "pattern" with
    | None => (origin, Some "missing `pattern' mandatory connector setting")
    | Some pattern =>
      (mkOrigin (Origin_Name origin) (Sources origin)
         (Some (mkHandler path pattern ∅)),
       None)
    end
  end.

Definition ConnectorHandlers
    : gmap string (Origin RRDConnectorHandler → gmap string string
                   → Origin RRDConnectorHandler * error) :=
  {["rrd" := rrd_constructor]}.

End Connector.

(** ** The expressions of the storage engine *)

Module RPN.

Import QArith_base.
Import Backend Connector.

(** Modelled from the spec: the storage engine is an external
    collaborator reached through the [rrd] binding, which is not part of
    the sources. It applies an arithmetic expression over previously
    defined series to derive a new named series. The expressions the
    connector writes are in reverse Polish notation, the tokens separated
    by commas: a number is pushed, a name pushes the sample of that
    series, and [+], [*], [/] replace the two topmost values by their sum,
    product or quotient; [UN] replaces a value by 1 when it is unknown and
    by 0 otherwise, and [a,b,c,IF] is [b] when [a] is not zero and [c]
    otherwise. A sample is a rational here: one point in time of a
    series, known, with exact arithmetic. *)
Definition all_pieces (s : string) : list string := SplitN s (S (String.length s)).

Definition nat_of_digits (s : string) : option N :=
  match s with
  | EmptyString => None
  | _ => N.of_uint <$> NilEmpty.uint_of_string s
  end.

(** A decimal literal: an optional sign, digits, and an optional
    fraction. *)
Definition parse_number (tok : string) : option Q :=
  let '(neg, body) :=
    match tok with
    | String "-" rest => (true, rest)
    | _ => (false, tok)
    end in
  let '(ip, fp) :=
    match cut_at "." body with
    | Some (a, b) => (a, Some b)
    | None => (body, None)
    end in
  i ← nat_of_digits ip;
  f ← match fp with
      | None => Some (0%N, 0%nat)
      | Some b => (λ f, (f, String.length b)) <$> nat_of_digits b
      end;
  let den := (10 ^ Z.of_nat f.2)%Z in
  let num := (Z.of_N i * den + Z.of_N f.1)%Z in
  Some (Qmake (if neg then - num else num) (Z.to_pos den)).

Fixpoint run (env : gmap string Q) (toks : list string) (st : list Q) : option Q :=
  match toks with
  | [] =>
    match st with
    | [v] => Some v
    | _ => None
    end
  | tok :: rest =>
    if String.eqb tok "+" then
      match st with
      | b :: a :: st' => run env rest (Qplus a b :: st')
      | _ => None
      end
    else if String.eqb tok "*" then
      match st with
      | b :: a :: st' => run env rest (Qmult a b :: st')
      | _ => None
      end
    else if String.eqb tok "/" then
      match st with
      | b :: a :: st' => run env rest (Qdiv a b :: st')
      | _ => None
      end
    else if String.eqb tok "UN" then
      match st with
      | _ :: st' => run env rest (Qmake 0 1 :: st')
      | _ => None
      end
    else if String.eqb tok "IF" then
      match st with
      | c :: b :: a :: st' =>
        run env rest ((if Qeq_bool a (Qmake 0 1) then c else b) :: st')
      | _ => None
      end
    else
      match parse_number tok with
      | Some v => run env rest (v :: st)
      | None =>
        match env !! tok with
        | Some v => run env rest (v :: st)
        | None => None
        end
      end
  end.

Definition eval (env : gmap string Q) (expr : string) : option Q :=
  run env (all_pieces expr) [].

(** The series a list of grapher calls defines, at one point in time:
    [samples file ds] is the sample of dataset [ds] of [file]. *)
Fixpoint define (samples : string → string → option Q) (cmds : list GraphCmd)
    (env : gmap string Q) : option (gmap string Q) :=
  match cmds with
  | [] => Some env
  | GDef vname file ds _ :: rest =>
    v ← samples file ds;
    define samples rest (<[vname := v]> env)
  | GCDef vname rpn :: rest =>
    v ← eval env rpn;
    define samples rest (<[vname := v]> env)
  | _ :: rest => define samples rest env
  end.

(** A token that stands for a series: not an operator, not a number. *)
Definition is_name (tok : string) : Prop :=
  String.eqb tok "+" = false ∧ String.eqb tok "*" = false
  ∧ String.eqb tok "/" = false ∧ String.eqb tok "UN" = false
  ∧ String.eqb tok "IF" = false ∧ parse_number tok = None.

(** The indices of the series that contribute to a group: those with a
    Metric. *)
Fixpoint contributing (l : list Serie) (index : nat) : list nat :=
  match l with
  | [] => []
  | serie :: rest =>
    match Serie_Metric serie with
    | Some _ => index :: contributing rest (S index)
    | None => contributing rest (S index)
    end
  end.

(** The name [rrdGetData] gives to the input of a group at [index]. *)
Definition temp_name (index : nat) : string :=
  "serie0-tmp" +:+ Itoa (Z.of_nat index).

(** The sum of the samples, added from left to right. *)
Definition total (vs : list Q) : Q :=
  match vs with
  | [] => Qmake 0 1
  | v :: vs => fold_left Qplus vs v
  end.

End RPN.

(** ** Sample data *)

Module Samples.

Import Backend Connector.

(** *** A catalog of two origins *)

(** The refresh of origin [a] fails; the refresh of any other origin
    finds one metric and succeeds. *)
Definition flaky_Update (o : Origin unit) : Origin unit * error :=
  if String.eqb (Origin_Name o) "a" then (o, Some "walk failed")
  else
    (mkOrigin (Origin_Name o)
       {["host1" := mkSource "host1" {["load" := mkMetric "load" "load" "host1"]}]}
       None,
     None).

Definition two_origins : Catalog unit unit :=
  mkCatalog tt {["a" := mkOrigin "a" ∅ None; "b" := mkOrigin "b" ∅ None]} 1000 0.

(** A catalog without origins, for the RRD connector. *)
Definition empty_catalog : Catalog RRDConnectorHandler unit := NewCatalog tt 0.

(** *** A directory of RRD files *)

Definition sample_pattern : string := "(?P<source>[^/]+)/(?P<metric>.+)".

(** The compiled form of [sample_pattern]: the leftmost match starts at
    the first byte of a relative path and the source ends at its first
    slash. *)
Definition sample_re : Regexp :=
  mkRegexp [""; "source"; "metric"]
    (λ rel,
       match cut_at "/" rel with
       | Some (String c a, String d b) => [rel; String c a; String d b]
       | _ => []
       end).

(** ["("] has a parenthesis that is never closed. *)
Definition sample_Compile (pattern : string) : option Regexp :=
  if String.eqb pattern sample_pattern then Some sample_re else None.

Definition sample_Info (filePath : string) : option (list string) * error :=
  if String.eqb filePath "/var/rrd/host1/load.rrd" then (Some ["value"], None)
  else (None, Some ("opening '" +:+ filePath +:+ "': No such file or directory")).

Definition mode_dir : Z := 0x800001ED.
Definition mode_file : Z := 0x1A4.

(** A walk that reads one file and then meets a directory it cannot
    open. *)
Definition denied_walk : list WalkEntry :=
  [mkWalkEntry "/var/rrd" mode_dir None;
   mkWalkEntry "/var/rrd/host1" mode_dir None;
   mkWalkEntry "/var/rrd/host1/load.rrd" mode_file None;
   mkWalkEntry "/var/rrd/host2" mode_dir
     (Some "open /var/rrd/host2: permission denied")].

Definition clean_walk : list WalkEntry :=
  [mkWalkEntry "/var/rrd" mode_dir None;
   mkWalkEntry "/var/rrd/host1" mode_dir None;
   mkWalkEntry "/var/rrd/host1/load.rrd" mode_file None].

Definition fresh_state (pattern : string) : State :=
  mkState (mkHandler "/var/rrd" pattern ∅) (mkChan [] 0) [].

(** *** Queries *)

Definition load1 : Metric := mkMetric "load/value" "load/value" "host1".
Definition load2 : Metric := mkMetric "load/value" "load/value" "host2".

Definition load_handler : RRDConnectorHandler :=
  mkHandler "/var/rrd" sample_pattern
    {["host1" := {["load/value" := mkRRDMetric "value" "/var/rrd/host1/load.rrd"]};
      "host2" := {["load/value" := mkRRDMetric "value" "/var/rrd/host2/load.rrd"]}]}.

Definition no_scale : float64 := S754_zero false.

(** An average over three series, the second of which has no Metric. *)
Definition avg_query : GroupQuery :=
  mkGroupQuery "load" OperGroupTypeAvg
    [mkSerie "first" (Some load1) no_scale;
     mkSerie "absent" None no_scale;
     mkSerie "second" (Some load2) no_scale]
    no_scale.

(** The same average with a group scale of 2.5. *)
Definition scaled_avg_query : GroupQuery :=
  mkGroupQuery "load" OperGroupTypeAvg (Query_Series avg_query)
    (Prim2SF 2.5%float).

(** At the point in time looked at, the first series is at 6 and the
    second at 3. *)
Definition load_samples (file ds : string) : option QArith_base.Q :=
  if String.eqb file "/var/rrd/host1/load.rrd" then Some (QArith_base.Qmake 6 1)
  else if String.eqb file "/var/rrd/host2/load.rrd" then Some (QArith_base.Qmake 3 1)
  else None.

(** A sum over one series. *)
Definition single_query : GroupQuery :=
  mkGroupQuery "load" OperGroupTypeSum [mkSerie "first" (Some load1) no_scale]
    no_scale.

(** A storage engine that exports two rows and prints one statistic. *)
Definition sample_Xport (cmds : list XportCmd) (startTime endTime step : Z)
    : XportResult * error :=
  (mkXportResult ["serie0"] 2 (λ _ row, of_int (Z.of_nat row)), None).

Definition sample_Graph (cmds : list GraphCmd) (startTime endTime : Z)
    : GraphInfo * error :=
  (mkGraphInfo ["first,avg,1.5"], None).

Definition sample_ParseFloat (s : string) : option float64 :=
  if String.eqb s "1.5" then Some (Prim2SF 1.5%float) else None.

(** *** Percentiles *)

Definition p50 : float64 := Prim2SF 50%float.
Definition p95_5 : float64 := Prim2SF 95.5%float.

(** [2 ^ 64], a whole number beyond the 64-bit integers. *)
Definition p2_64 : float64 := Prim2SF 18446744073709551616%float.

End Samples.

(** * Properties *)

Import Backend Connector Samples.

Local Open Scope list_scope.

#[local] Set Warnings "-clear-no-such-hyp".

Lemma forallb_ext_elem {A} (f g : A → bool) (l : list A) :
  (∀ x, x ∈ l → f x = g x) → forallb f l = forallb g l.
Proof.
  induction l as [|a l IH]; intros H; simpl; [done|].
  rewrite (H a) by apply list_elem_of_here. f_equal. apply IH.
  intros x Hx. apply H. by apply list_elem_of_further.
Qed.

(** ** The catalog *)

Section CatalogFacts.

Context {Connector Config : Type}.
Abbreviation Catalog := (Backend.Catalog Connector Config).
Abbreviation Origin := (Backend.Origin Connector).

Variable BackendHandlers : gmap string (Origin → gmap string string → Origin * error).

Lemma MetricExists_true (catalog : Catalog) origin source name :
  MetricExists catalog origin source name = true ↔
  ∃ o s m, Origins catalog !! origin = Some o ∧ Sources o !! source = Some s
           ∧ Metrics s !! name = Some m.
Proof.
  unfold MetricExists. split.
  - destruct (Origins catalog !! origin) as [o|] eqn:Ho; [|done].
    destruct (Sources o !! source) as [s|] eqn:Hs; [|done].
    destruct (Metrics s !! name) as [m|] eqn:Hm; [|done].
    intros _. by exists o, s, m.
  - intros (o & s & m & -> & -> & ->). done.
Qed.

(** C7: in every catalog state and for every triple, [GetMetric] returns
    without a panic, [MetricExists] is true exactly when [GetMetric]
    returns a Metric, and both answer false and nil when the origin, the
    source within it or the metric within that source is absent. *)
Theorem MetricExists_iff_GetMetric (catalog : Catalog) (origin source name : string) :
  is_Ret (GetMetric catalog origin source name) = true
  ∧ (MetricExists catalog origin source name = true ↔
     ∃ m, GetMetric catalog origin source name = Ret (Some m))
  ∧ (MetricExists catalog origin source name = false ↔
     GetMetric catalog origin source name = Ret None)
  ∧ (Origins catalog !! origin = None →
     MetricExists catalog origin source name = false)
  ∧ (∀ o, Origins catalog !! origin = Some o → Sources o !! source = None →
     MetricExists catalog origin source name = false)
  ∧ (∀ o s, Origins catalog !! origin = Some o → Sources o !! source = Some s →
     Metrics s !! name = None →
     MetricExists catalog origin source name = false).
Proof.
  unfold GetMetric.
  destruct (MetricExists catalog origin source name) eqn:E; simpl.
  - apply MetricExists_true in E as (o & s & m & Ho & Hs & Hm).
    rewrite Ho, Hs, Hm. repeat split; try done; eauto; congruence.
  - repeat split; try done.
    intros [m Hm]. discriminate.
Qed.

(** C8: when the settings have no ["type"], or name a type that the
    registry does not have, or the registered constructor reports an
    error, [AddOrigin] returns no Origin and an error, and the catalog,
    its [Origins] map included, is as it was. *)
Theorem AddOrigin_failure_inserts_nothing (catalog : Catalog) (name : string)
    (config : gmap string string) :
  (config !! "type" = None →
   AddOrigin BackendHandlers catalog name config
   = (catalog, (None, Some "missing backend type")))
  ∧ (∀ ty, config !! "type" = Some ty → BackendHandlers !! ty = None →
     AddOrigin BackendHandlers catalog name config
     = (catalog, (None, Some ("unknown `" +:+ ty +:+ "' backend type"))))
  ∧ (∀ ty constructor o e,
     config !! "type" = Some ty → BackendHandlers !! ty = Some constructor →
     constructor (mkOrigin name ∅ None) config = (o, Some e) →
     AddOrigin BackendHandlers catalog name config = (catalog, (None, Some e))).
Proof.
  unfold AddOrigin. repeat split.
  - by intros ->.
  - intros ty Hty Hreg. rewrite Hty; cbn beta iota. by rewrite Hreg.
  - intros ty constructor o e Hty Hreg Hc.
    rewrite Hty; cbn beta iota. rewrite Hreg; cbn beta iota. by rewrite Hc.
Qed.

(** Whenever [AddOrigin] reports an error the catalog is unchanged. *)
Lemma AddOrigin_error_unchanged (catalog : Catalog) name config catalog' o e :
  AddOrigin BackendHandlers catalog name config = (catalog', (o, Some e)) →
  catalog' = catalog ∧ o = None.
Proof.
  unfold AddOrigin.
  destruct (config !! "type") as [ty|]; [|by intros [= <- <- _]].
  destruct (BackendHandlers !! ty) as [c|]; [|by intros [= <- <- _]].
  destruct (c _ config) as [o' [e'|]]; [by intros [= <- <- _]|].
  intros [=].
Qed.

(** On success the Origin is stored under its name. *)
Lemma AddOrigin_success_inserts (catalog : Catalog) name config catalog' o :
  AddOrigin BackendHandlers catalog name config = (catalog', (Some o, None)) →
  Origins catalog' !! name = Some o.
Proof.
  unfold AddOrigin.
  destruct (config !! "type") as [ty|]; [|done].
  destruct (BackendHandlers !! ty) as [c|]; [|done].
  destruct (c _ config) as [o' [e'|]]; [done|].
  intros [= <- <-]. simpl. apply lookup_insert_eq.
Qed.

End CatalogFacts.

(** *** Catalog.Update *)

Section UpdateFacts.

Context {Connector Config : Type}.

Abbreviation Catalog := (Backend.Catalog Connector Config).
Abbreviation Origin := (Backend.Origin Connector).

Variable Origin_Update : Origin → Origin * error.

Lemma update_origins_app l1 l2 origins log err success :
  update_origins Origin_Update (l1 ++ l2) origins log err success =
  let '(o1, lg1, e1, s1) := update_origins Origin_Update l1 origins log err success in
  update_origins Origin_Update l2 o1 lg1 e1 s1.
Proof.
  revert origins log err success.
  induction l1 as [|name l1 IH]; intros origins log err success; simpl; [done|].
  destruct (origins !! name) as [o|]; [|apply IH].
  destruct (Origin_Update o) as [o' [msg|]]; apply IH.
Qed.

(** The loop visits every origin of [order] once: an origin outside
    [order] is untouched, an origin of [order] is replaced by its
    refreshed state, and [success] stays true exactly when no refresh
    failed. *)
Lemma update_origins_inv order :
  ∀ origins log err success,
  NoDup order →
  ∀ origins' log' err' success',
  update_origins Origin_Update order origins log err success
    = (origins', log', err', success') →
  (∀ name, name ∉ order → origins' !! name = origins !! name)
  ∧ (∀ name o, name ∈ order → origins !! name = Some o →
       origins' !! name = Some (Origin_Update o).1)
  ∧ success' = success && forallb (refresh_ok Origin_Update origins) order.
Proof.
  induction order as [|name order IH]; intros origins log err success Hnd
    origins' log' err' success'; simpl.
  - intros [= <- <- <- <-]. rewrite andb_true_r.
    split_and!; [done| |done]. intros name o Hin. by apply elem_of_nil in Hin.
  - apply NoDup_cons in Hnd as [Hname Hnd].
    unfold refresh_ok at 1.
    destruct (origins !! name) as [o|] eqn:Ho.
    + destruct (Origin_Update o) as [o' e] eqn:Hupd.
      assert (Hstep : ∀ lg s,
        update_origins Origin_Update order (<[name:=o']> origins) lg e s
          = (origins', log', err', success') →
        (∀ n, n ∉ name :: order → origins' !! n = origins !! n)
        ∧ (∀ n o0, n ∈ name :: order → origins !! n = Some o0 →
             origins' !! n = Some (Origin_Update o0).1)
        ∧ success' = s && forallb (refresh_ok Origin_Update origins) order).
      { intros lg s Hrun.
        destruct (IH _ _ _ _ Hnd _ _ _ _ Hrun) as (Hout & Hin & Hs).
        split_and!.
        - intros n Hn. apply not_elem_of_cons in Hn as [Hne Hn].
          rewrite (Hout n Hn). by apply lookup_insert_ne.
        - intros n o0 Hn Hlook. apply elem_of_cons in Hn as [->|Hn].
          + rewrite (Hout name Hname), lookup_insert_eq.
            rewrite Ho in Hlook. injection Hlook as <-. by rewrite Hupd.
          + apply Hin; [done|]. rewrite lookup_insert_ne; [done|].
            intros <-. done.
        - rewrite Hs. f_equal. apply forallb_ext_elem.
          intros n Hn. unfold refresh_ok.
          rewrite lookup_insert_ne; [done|]. intros <-. done. }
      destruct e as [msg|]; simpl; intros Hrun.
      * destruct (Hstep _ _ Hrun) as (H1 & H2 & H3).
        split_and!; [done|done|]. rewrite H3. by rewrite andb_false_r.
      * destruct (Hstep _ _ Hrun) as (H1 & H2 & H3).
        split_and!; [done|done|]. by rewrite H3.
    + intros Hrun. destruct (IH _ _ _ _ Hnd _ _ _ _ Hrun) as (Hout & Hin & Hs).
      split_and!.
      * intros n Hn. apply not_elem_of_cons in Hn as [Hne Hn]. by apply Hout.
      * intros n o0 Hn Hlook. apply elem_of_cons in Hn as [->|Hn]; [congruence|].
        by apply Hin.
      * done.
Qed.

(** What [err] holds after the loop is the result of the last refresh,
    an error or nil, whatever happened before. *)
Lemma update_origins_last order name origins log err success o :
  name ∉ order → origins !! name = Some o →
  ∀ origins' log' err' success',
  update_origins Origin_Update (order ++ [name]) origins log err success
    = (origins', log', err', success') →
  err' = (Origin_Update o).2.
Proof.
  intros Hname Ho origins' log' err' success'.
  rewrite update_origins_app.
  destruct (update_origins Origin_Update order origins log err success)
    as [[[o1 lg1] e1] s1] eqn:Hrun.
  assert (Hsame : o1 !! name = Some o).
  { clear -Hrun Hname Ho. revert origins log err success Hrun Ho.
    induction order as [|n order IH]; intros origins log err success; simpl.
    - by intros [= <- _ _ _].
    - apply not_elem_of_cons in Hname as [Hne Hname].
      destruct (origins !! n) as [on|]; [|by apply IH].
      destruct (Origin_Update on) as [on' [msg|]]; intros Hrun Ho;
        (eapply (IH Hname); [exact Hrun|]); by rewrite lookup_insert_ne. }
  simpl. rewrite Hsame.
  destruct (Origin_Update o) as [o' [msg|]]; by intros [= _ _ <- _].
Qed.

(** When the refresh of some origin fails, [Updated] keeps its value and
    every origin has been refreshed all the same. *)
Lemma Update_failure_keeps_Updated order now (catalog : Catalog) name :
  NoDup order → name ∈ order →
  refresh_ok Origin_Update (Origins catalog) name = false →
  Updated (Backend.Update Origin_Update order now catalog).1.1 = Updated catalog.
Proof.
  intros Hnd Hin Hfail. unfold Backend.Update.
  destruct (update_origins _ _ _ _ _ _) as [[[o1 lg1] e1] s1] eqn:Hrun.
  destruct (update_origins_inv _ _ _ _ _ Hnd _ _ _ _ Hrun) as (_ & _ & ->).
  simpl. replace (forallb _ order) with false; [done|].
  symmetry. apply not_true_is_false. rewrite forallb_forall.
  intros Hall. apply list_elem_of_In in Hin. specialize (Hall _ Hin). congruence.
Qed.

(** A pass in which every refresh succeeds returns nil and sets
    [Updated] to the current time. *)
Lemma Update_clean_pass order now (catalog : Catalog) :
  NoDup order → forallb (refresh_ok Origin_Update (Origins catalog)) order = true →
  (Backend.Update Origin_Update order now catalog).2 = None
  ∧ Updated (Backend.Update Origin_Update order now catalog).1.1 = now.
Proof.
  intros Hnd Hall. unfold Backend.Update.
  destruct (update_origins _ _ _ _ _ _) as [[[o1 lg1] e1] s1] eqn:Hrun.
  destruct (update_origins_inv _ _ _ _ _ Hnd _ _ _ _ Hrun) as (_ & _ & ->).
  by rewrite Hall.
Qed.

(** Every origin of the pass is refreshed, whether earlier ones failed
    or not. *)
Lemma Update_attempts_all order now (catalog : Catalog) name o :
  NoDup order → name ∈ order → Origins catalog !! name = Some o →
  Origins (Backend.Update Origin_Update order now catalog).1.1 !! name
  = Some (Origin_Update o).1.
Proof.
  intros Hnd Hin Ho. unfold Backend.Update.
  destruct (update_origins _ _ _ _ _ _) as [[[o1 lg1] e1] s1] eqn:Hrun.
  destruct (update_origins_inv _ _ _ _ _ Hnd _ _ _ _ Hrun) as (_ & Hall & _).
  destruct (negb s1); simpl; by apply Hall.
Qed.

(** What a failed pass returns is the result of the origin visited last:
    its error when it failed, nil when it succeeded. *)
Lemma Update_failed_pass_returns_last_result (order : list string) name now
    (catalog : Catalog) o bad :
  NoDup (order ++ [name]) → Origins catalog !! name = Some o →
  bad ∈ order ++ [name] → refresh_ok Origin_Update (Origins catalog) bad = false →
  (Backend.Update Origin_Update (order ++ [name]) now catalog).2 = (Origin_Update o).2.
Proof.
  intros Hnd Ho Hbad Hfail. unfold Backend.Update.
  destruct (update_origins _ _ _ _ _ _) as [[[o1 lg1] e1] s1] eqn:Hrun.
  destruct (update_origins_inv _ _ _ _ _ Hnd _ _ _ _ Hrun) as (_ & _ & ->).
  replace (forallb _ (order ++ [name])) with false.
  - simpl. eapply update_origins_last; [|exact Ho|exact Hrun].
    apply NoDup_app in Hnd as (_ & Hdisj & _). intros Hin.
    apply (Hdisj _ Hin). by apply list_elem_of_singleton.
  - symmetry. apply not_true_is_false. rewrite forallb_forall.
    intros Hall. apply list_elem_of_In in Hbad. specialize (Hall _ Hbad). congruence.
Qed.

End UpdateFacts.

(** ** Discovery *)

(** Case analysis on the first call of a sequence that may panic. *)
Ltac step_result :=
  match goal with
  | |- context [rbind ?r _] =>
    let E := fresh "E" in destruct r eqn:E; simpl; try discriminate
  end.

Ltac case_split :=
  match goal with
  | |- context [rbind ?r _] => destruct r eqn:?; simpl
  | |- context [match ?x with _ => _ end] => destruct x eqn:?; simpl
  end.

Section DiscoveryFacts.

Variable regexp_Compile : string → option Regexp.
Variable rrd_Info : string → option (list string) * error.

Lemma chan_send_closes c v c' :
  chan_send c v = Ret c' → closes c' = closes c ∧ closes c = 0%nat.
Proof.
  unfold chan_send. destruct (closes c) eqn:E; [|done].
  intros [= <-]. done.
Qed.

Lemma register_datasets_closes dsNames filePath source metric :
  ∀ st st',
  register_datasets dsNames filePath source metric st = Ret st' →
  closes (inputChan st') = closes (inputChan st).
Proof.
  induction dsNames as [|ds dsNames IH]; intros st st'; simpl.
  - by intros [= <-].
  - step_result. intros Hrest. apply IH in Hrest. simpl in Hrest.
    rewrite Hrest. by apply chan_send_closes in E as [-> _].
Qed.

Lemma walkFunc_closes re st filePath mode err st' r :
  walkFunc rrd_Info re st filePath mode err = Ret (st', r) →
  closes (inputChan st') = closes (inputChan st).
Proof.
  unfold walkFunc. repeat case_split; intros H; simplify_eq; simpl; try done;
    match goal with
    | R : register_datasets _ _ _ _ _ = Ret _ |- _ =>
      by apply register_datasets_closes in R
    end.
Qed.

Lemma WalkDir_closes re visits :
  ∀ st st' r,
  WalkDir visits (walkFunc rrd_Info re) st = Ret (st', r) →
  closes (inputChan st') = closes (inputChan st).
Proof.
  induction visits as [|v visits IH]; intros st st' r; simpl.
  - by intros [= <- _].
  - step_result. destruct a as [st1 [e|]].
    + intros [= <- _]. by apply walkFunc_closes in E.
    + intros Hrest. apply IH in Hrest. rewrite Hrest.
      by apply walkFunc_closes in E.
Qed.

(** A discovery that returns nil has closed the channel, which was
    open, and closed it once. *)
Lemma Update_success_closes_once visits st st' :
  Connector.Update regexp_Compile rrd_Info visits st = Ret (st', None) →
  closes (inputChan st) = 0%nat ∧ closes (inputChan st') = 1%nat.
Proof.
  unfold Connector.Update.
  destruct (regexp_Compile _) as [re|]; [|done].
  destruct (validate_keywords _ _) as [groups|msg]; [|done].
  destruct (negb _); [done|]. destruct (negb _); [done|].
  step_result. destruct a as [st1 [e|]]; [done|].
  step_result. intros [= <-]. simpl.
  apply WalkDir_closes in E. rewrite <- E.
  unfold chan_close in E0. destruct (closes (inputChan st1)); [|done].
  by injection E0 as <-.
Qed.

(** A discovery that returns an error has not closed the channel. *)
Lemma Update_error_leaves_channel visits st st' e :
  Connector.Update regexp_Compile rrd_Info visits st = Ret (st', Some e) →
  closes (inputChan st') = closes (inputChan st).
Proof.
  unfold Connector.Update.
  destruct (regexp_Compile _) as [re|]; [|done].
  destruct (validate_keywords _ _) as [groups|msg]; [|by intros [= <- _]].
  destruct (negb _); [by intros [= <- _]|].
  destruct (negb _); [by intros [= <- _]|].
  step_result. destruct a as [st1 [e1|]].
  - intros [= <- _]. by apply WalkDir_closes in E.
  - by step_result.
Qed.

Lemma elem_of_named_groups re key :
  key ∈ named_groups re ↔ key ∈ SubexpNames re ∧ key ≠ "".
Proof.
  unfold named_groups.
  rewrite elem_of_list_to_set, list_elem_of_In, filter_In, <- list_elem_of_In.
  rewrite negb_true_iff, String.eqb_neq. done.
Qed.

Lemma validate_keywords_inl names :
  ∀ groups groups',
  validate_keywords names groups = inl groups' →
  (∀ key, key ∈ groups' ↔ (key ∈ names ∧ key ≠ "") ∨ key ∈ groups)
  ∧ (∀ key, key ∈ names → key = "" ∨ key = "source" ∨ key = "metric").
Proof.
  induction names as [|k names IH]; intros groups groups'; simpl.
  - intros [= <-]. split; [|by intros key ?%elem_of_nil].
    intros key. split; [by right|]. intros [[?%elem_of_nil _]|]; done.
  - destruct (String.eqb k "") eqn:Ek.
    + apply String.eqb_eq in Ek as ->. intros [Hg Hn]%IH. split.
      * intros key. rewrite Hg, elem_of_cons. naive_solver.
      * intros key [->|?]%elem_of_cons; [by left|by apply Hn].
    + apply String.eqb_neq in Ek.
      destruct (String.eqb k "source" || String.eqb k "metric") eqn:Ekw; [|done].
      apply orb_true_iff in Ekw. rewrite !String.eqb_eq in Ekw.
      intros [Hg Hn]%IH. split.
      * intros key. rewrite Hg, elem_of_cons, elem_of_union, elem_of_singleton.
        naive_solver.
      * intros key [->|?]%elem_of_cons; [naive_solver|by apply Hn].
Qed.

Lemma validate_keywords_inr names :
  ∀ groups msg,
  validate_keywords names groups = inr msg →
  ∃ key, key ∈ names ∧ key ≠ "" ∧ key ≠ "source" ∧ key ≠ "metric"
         ∧ msg = "invalid pattern keyword `" +:+ key +:+ "'".
Proof.
  induction names as [|k names IH]; intros groups msg; simpl; [done|].
  destruct (String.eqb k "") eqn:Ek.
  - intros (key & ? & ?)%IH. exists key. split; [by apply list_elem_of_further|done].
  - apply String.eqb_neq in Ek.
    destruct (String.eqb k "source" || String.eqb k "metric") eqn:Ekw.
    + intros (key & ? & ?)%IH. exists key.
      split; [by apply list_elem_of_further|done].
    + apply orb_false_iff in Ekw as [Es Em]. apply String.eqb_neq in Es, Em.
      intros [= <-]. exists k. split_and!; try done. apply list_elem_of_here.
Qed.

(** A pattern whose named groups are not exactly [source] and [metric]
    is refused with an error that names a foreign keyword of the pattern
    or the keyword it lacks; the handler, the channel and the log are as
    they were, so no metric is registered. *)
Lemma Update_rejects_keywords visits st re :
  regexp_Compile (Pattern (handler st)) = Some re →
  named_groups re ≠ ({["source"; "metric"]} : gset string) →
  ∃ key,
    (key ∈ named_groups re ∧ key ≠ "source" ∧ key ≠ "metric"
     ∧ Connector.Update regexp_Compile rrd_Info visits st
       = Ret (st, Some ("invalid pattern keyword `" +:+ key +:+ "'")))
    ∨ (¬ key ∈ named_groups re ∧ (key = "source" ∨ key = "metric")
       ∧ Connector.Update regexp_Compile rrd_Info visits st
         = Ret (st, Some ("missing pattern keyword `" +:+ key +:+ "'"))).
Proof.
  intros Hre Hneq. unfold Connector.Update. rewrite Hre.
  destruct (validate_keywords _ _) as [groups|msg] eqn:Hv.
  - apply validate_keywords_inl in Hv as [Hg Hn].
    assert (Hgroups : ∀ key, key ∈ groups ↔ key ∈ named_groups re).
    { intros key. rewrite Hg, elem_of_named_groups. set_solver. }
    destruct (decide ("source" ∈ groups)) as [Hs|Hs].
    + rewrite (bool_decide_eq_true_2 _ Hs). simpl.
      destruct (decide ("metric" ∈ groups)) as [Hm|Hm].
      * exfalso. apply Hneq. apply set_eq. intros key.
        rewrite <- Hgroups. split.
        -- intros Hk. apply Hg in Hk as [[Hk Hne]|Hk]; [|set_solver].
           destruct (Hn _ Hk) as [?|[->| ->]]; [done|set_solver|set_solver].
        -- intros [->%elem_of_singleton| ->%elem_of_singleton]%elem_of_union; done.
      * rewrite (bool_decide_eq_false_2 _ Hm). simpl.
        exists "metric". right. rewrite <- Hgroups. naive_solver.
    + rewrite (bool_decide_eq_false_2 _ Hs). simpl.
      exists "source". right. rewrite <- Hgroups. naive_solver.
  - apply validate_keywords_inr in Hv as (key & Hk & Hne & Hs & Hm & ->).
    exists key. left. rewrite elem_of_named_groups. done.
Qed.

End DiscoveryFacts.

(** C1, on the failing input: origin [a] fails, origin [b] succeeds, and
    the range visits [a] before [b]. The pass is logged as failed and
    [Updated] keeps its value, but the call returns nil: the error of
    [a] was overwritten by the nil result of [b]. When the range visits
    [b] first, the error of [a] is returned. *)
Theorem Update_returns_nil_after_failure :
  refresh_ok flaky_Update (Origins two_origins) "a" = false
  ∧ (Backend.Update flaky_Update ["a"; "b"] 2000 two_origins).2 = None
  ∧ (Backend.Update flaky_Update ["a"; "b"] 2000 two_origins).1.2
    = ["INFO: catalog update started"; "ERROR: walk failed";
       "INFO: catalog update failed"]
  ∧ Updated (Backend.Update flaky_Update ["a"; "b"] 2000 two_origins).1.1 = 1000%Z
  ∧ (Backend.Update flaky_Update ["b"; "a"] 2000 two_origins).2
    = Some "walk failed".
Proof. vm_compute. repeat split; reflexivity. Qed.

(** C3, on the failing input: the walk reads one file and then meets a
    directory that cannot be opened. The discovery returns the error of
    the walk and the channel, on which one pair was sent, has not been
    closed; the same walk without the unreadable directory closes it
    once. *)
Theorem Update_aborted_walk_leaves_channel_open :
  (∃ st,
     Connector.Update sample_Compile sample_Info denied_walk
       (fresh_state sample_pattern)
     = Ret (st, Some "open /var/rrd/host2: permission denied")
     ∧ inputChan st = mkChan [("host1", "load.rrd/value")] 0)
  ∧ (∃ st,
     Connector.Update sample_Compile sample_Info clean_walk
       (fresh_state sample_pattern)
     = Ret (st, None)
     ∧ inputChan st = mkChan [("host1", "load.rrd/value")] 1).
Proof. split; eexists; split; vm_compute; reflexivity. Qed.

(** C4, on the failing input: the pattern ["("] is not a regular
    expression, and the discovery panics where the pattern is compiled:
    no error value is returned. *)
Theorem Update_panics_on_malformed_pattern :
  sample_Compile "(" = None
  ∧ Connector.Update sample_Compile sample_Info clean_walk (fresh_state "(")
    = Panic "regexp: Compile: error parsing regexp".
Proof. split; reflexivity. Qed.

(** ** The query engine *)

Section QueryFacts.

Variable rrd_Xport : list XportCmd → Z → Z → Z → XportResult * error.
Variable rrd_Graph : list GraphCmd → Z → Z → GraphInfo * error.
Variable strconv_ParseFloat : string → option float64.


Lemma set_Type_set_Type q t t' : set_Type (set_Type q t) t' = set_Type q t'.
Proof. done. Qed.

Lemma set_Type_same q : set_Type q (Query_Type q) = q.
Proof. by destruct q. Qed.

(** With one series, the query [rrdGetData] works on has the operator
    [OperGroupTypeNone], whatever the caller had set. *)
Lemma rrdGetData_normalizes h q startTime endTime step percentiles infoOnly :
  List.length (Query_Series q) = 1%nat →
  (rrdGetData rrd_Xport rrd_Graph strconv_ParseFloat h q startTime endTime
     step percentiles infoOnly).1
  = set_Type q OperGroupTypeNone.
Proof.
  intros Hlen. unfold rrdGetData.
  destruct (Query_Series q) as [|s [|]] eqn:Hs; try discriminate.
  destruct (decide (Query_Type q = OperGroupTypeNone)) as [Hq|Hq].
  - rewrite bool_decide_eq_false_2 by (intros H; by apply H).
    cbn [andb fst]. by rewrite <- Hq, set_Type_same.
  - by rewrite bool_decide_eq_true_2.
Qed.

(** C6: with exactly one series, the evaluation of a query with any
    operator, known or not, is the evaluation of the same query with the
    operator [OperGroupTypeNone]: the same outcome (result map, error or
    panic) and the same query left to the caller, for [rrdGetData],
    [GetPlots] and [GetValue]. *)
Theorem single_series_evaluates_as_None h q t startTime endTime step refTime
    percentiles infoOnly :
  List.length (Query_Series q) = 1%nat →
  rrdGetData rrd_Xport rrd_Graph strconv_ParseFloat h (set_Type q t)
    startTime endTime step percentiles infoOnly
  = rrdGetData rrd_Xport rrd_Graph strconv_ParseFloat h
      (set_Type q OperGroupTypeNone) startTime endTime step percentiles infoOnly
  ∧ GetPlots rrd_Xport rrd_Graph strconv_ParseFloat h (set_Type q t)
      startTime endTime step percentiles
    = GetPlots rrd_Xport rrd_Graph strconv_ParseFloat h
        (set_Type q OperGroupTypeNone) startTime endTime step percentiles
  ∧ GetValue rrd_Xport rrd_Graph strconv_ParseFloat h (set_Type q t)
      refTime percentiles
    = GetValue rrd_Xport rrd_Graph strconv_ParseFloat h
        (set_Type q OperGroupTypeNone) refTime percentiles.
Proof.
  intros Hlen.
  assert (H : ∀ s e st io,
    rrdGetData rrd_Xport rrd_Graph strconv_ParseFloat h (set_Type q t)
      s e st percentiles io
    = rrdGetData rrd_Xport rrd_Graph strconv_ParseFloat h
        (set_Type q OperGroupTypeNone) s e st percentiles io).
  { intros s e st io.
    destruct (decide (t = OperGroupTypeNone)) as [->|Ht]; [done|].
    unfold rrdGetData.
    change (Query_Series (set_Type q t)) with (Query_Series q).
    change (Query_Series (set_Type q OperGroupTypeNone)) with (Query_Series q).
    change (Query_Type (set_Type q t)) with t.
    change (Query_Type (set_Type q OperGroupTypeNone)) with OperGroupTypeNone.
    destruct (Query_Series q) as [|s0 [|]] eqn:Hs; try discriminate.
    rewrite (bool_decide_eq_true_2 (t ≠ OperGroupTypeNone)) by done.
    rewrite (bool_decide_eq_false_2 (OperGroupTypeNone ≠ OperGroupTypeNone))
      by (intros Hne; by apply Hne).
    reflexivity. }
  split_and!.
  - apply H.
  - unfold GetPlots. apply H.
  - unfold GetValue. by rewrite H.
Qed.

(** C9: with exactly one series and an operator other than
    [OperGroupTypeNone], the query the caller holds after [GetPlots] or
    [GetValue] has the operator [OperGroupTypeNone] and its name, series
    and scale unchanged. *)
Theorem evaluation_overwrites_Type h q startTime endTime step refTime percentiles :
  List.length (Query_Series q) = 1%nat →
  Query_Type q ≠ OperGroupTypeNone →
  let after_plots :=
    (GetPlots rrd_Xport rrd_Graph strconv_ParseFloat h q startTime endTime step
       percentiles).1 in
  let after_value :=
    (GetValue rrd_Xport rrd_Graph strconv_ParseFloat h q refTime percentiles).1 in
  (Query_Type after_plots = OperGroupTypeNone
   ∧ Query_Name after_plots = Query_Name q
   ∧ Query_Series after_plots = Query_Series q
   ∧ Query_Scale after_plots = Query_Scale q)
  ∧ (Query_Type after_value = OperGroupTypeNone
     ∧ Query_Name after_value = Query_Name q
     ∧ Query_Series after_value = Query_Series q
     ∧ Query_Scale after_value = Query_Scale q).
Proof.
  intros Hlen Hty after_plots after_value.
  assert (Hp : after_plots = set_Type q OperGroupTypeNone).
  { unfold after_plots, GetPlots. by apply rrdGetData_normalizes. }
  assert (Hv : after_value = set_Type q OperGroupTypeNone).
  { unfold after_value, GetValue.
    pose proof (rrdGetData_normalizes h q (refTime + -1 * time_Minute) refTime
                  time_Minute percentiles true Hlen) as Hn.
    destruct (rrdGetData _ _ _ _ _ _ _ _ _ _) as [q' r]. by simpl in *. }
  by rewrite Hp, Hv.
Qed.

(** With one series the switch takes the [OperGroupTypeNone] case,
    whatever the operator was: the unknown-operator error is out of
    reach. *)
Lemma rrdGetData_single_series h q startTime endTime step percentiles infoOnly :
  List.length (Query_Series q) = 1%nat →
  (rrdGetData rrd_Xport rrd_Graph strconv_ParseFloat h q startTime endTime
     step percentiles infoOnly).2
  = (p ←! plan_none h (set_Type q OperGroupTypeNone) percentiles infoOnly
            (Query_Series q) 0 (mkPlan [] [] ∅);
     fetch rrd_Xport rrd_Graph strconv_ParseFloat p startTime endTime step
       infoOnly).
Proof.
  intros Hlen. unfold rrdGetData.
  destruct (Query_Series q) as [|s [|]] eqn:Hs; try discriminate.
  destruct (decide (Query_Type q = OperGroupTypeNone)) as [Hq|Hq].
  - rewrite bool_decide_eq_false_2 by (intros H; by apply H).
    cbn [andb snd]. rewrite Hq, Hs. by rewrite <- Hq, set_Type_same.
  - rewrite bool_decide_eq_true_2 by done.
    cbn [List.length Nat.eqb andb snd set_Type Query_Type Query_Series].
    by rewrite Hs.
Qed.

(** A query with two series or more, or with the operator
    [OperGroupTypeNone], is left as it is. *)
Lemma rrdGetData_keeps_other_queries h q startTime endTime step percentiles infoOnly :
  List.length (Query_Series q) ≠ 1%nat ∨ Query_Type q = OperGroupTypeNone →
  (rrdGetData rrd_Xport rrd_Graph strconv_ParseFloat h q startTime endTime
     step percentiles infoOnly).1 = q.
Proof.
  intros Hq. unfold rrdGetData.
  destruct (Query_Series q) as [|s l] eqn:Hs; [done|].
  destruct Hq as [Hlen|Hty].
  - destruct l; [done|]. cbn [List.length Nat.eqb]. by rewrite andb_false_r.
  - rewrite bool_decide_eq_false_2 by (intros H; by apply H). done.
Qed.

End QueryFacts.

(** *** rrdParseInfo *)

Section ParseInfoFacts.

Variable strconv_ParseFloat : string → option float64.

Lemma cut_at_comma_None s : cut_at "," s = None → count_commas s = 0%nat.
Proof.
  induction s as [|c s IH]; simpl; [done|].
  destruct (Ascii.eqb c ","); [done|].
  destruct (cut_at "," s) as [[a b]|]; [done|]. auto.
Qed.

Lemma cut_at_comma_Some s a b :
  cut_at "," s = Some (a, b) → count_commas s = S (count_commas b).
Proof.
  revert a. induction s as [|c s IH]; intros a; simpl; [done|].
  destruct (Ascii.eqb c ","); [by intros [= _ ->]|].
  destruct (cut_at "," s) as [[a' b']|] eqn:E; [|done].
  intros [= _ <-]. by apply (IH a').
Qed.

(** [SplitN] with a limit of three yields one piece more than the
    entry has commas, and three pieces at most. *)
Lemma SplitN_3_length value :
  List.length (SplitN value 3) = Nat.min 3 (S (count_commas value)).
Proof.
  simpl. destruct (cut_at "," value) as [[a b]|] eqn:E1.
  - rewrite (cut_at_comma_Some _ _ _ E1).
    destruct (cut_at "," b) as [[a' b']|] eqn:E2.
    + by rewrite (cut_at_comma_Some _ _ _ E2).
    + by rewrite (cut_at_comma_None _ E2).
  - by rewrite (cut_at_comma_None _ E1).
Qed.

Lemma index_Ret {A} (l : list A) i : (i < List.length l)%nat → ∃ a, index l i = Ret a.
Proof.
  intros Hi. unfold index. destruct (l !! i) as [a|] eqn:E; [by exists a|].
  apply lookup_ge_None in E. lia.
Qed.

Lemma index_Panic {A} (l : list A) i :
  (List.length l ≤ i)%nat → index l i = Panic "index out of range".
Proof.
  intros Hi. unfold index. by rewrite (proj2 (lookup_ge_None l i) Hi).
Qed.

(** One entry with two commas or more is parsed and the loop goes on. *)
Lemma rrdParseInfo_cons_ok value rest data :
  (2 ≤ count_commas value)%nat →
  ∃ data', rrdParseInfo strconv_ParseFloat (value :: rest) data
           = rrdParseInfo strconv_ParseFloat rest data'.
Proof.
  intros Hc. pose proof (SplitN_3_length value) as Hlen.
  rewrite Nat.min_l in Hlen by lia.
  cbn [rrdParseInfo].
  destruct (index_Ret (SplitN value 3) 2) as [c2 ->]; [lia|].
  destruct (index_Ret (SplitN value 3) 0) as [c0 ->]; [lia|].
  destruct (index_Ret (SplitN value 3) 1) as [c1 ->]; [lia|].
  cbn [rbind].
  destruct (data !! c0) as [pr|] eqn:E.
  - rewrite E. eauto.
  - rewrite lookup_insert_eq. eauto.
Qed.

Lemma rrdParseInfo_cons_panic value rest data :
  (count_commas value < 2)%nat →
  rrdParseInfo strconv_ParseFloat (value :: rest) data = Panic "index out of range".
Proof.
  intros Hc. pose proof (SplitN_3_length value) as Hlen.
  rewrite Nat.min_r in Hlen by lia.
  cbn [rrdParseInfo]. rewrite index_Panic by lia. done.
Qed.

(** C10: [rrdParseInfo] cuts an entry into three pieces at most and
    reads the third one: it returns exactly when every entry has two
    commas or more, and an entry with fewer makes it panic with an index
    out of range. *)
Theorem rrdParseInfo_returns_iff_two_commas (prints : list string)
    (data : gmap string PlotResult) :
  (is_Ret (rrdParseInfo strconv_ParseFloat prints data) = true
   ↔ Forall (λ value, (2 ≤ count_commas value)%nat) prints)
  ∧ (rrdParseInfo strconv_ParseFloat prints data = Panic "index out of range"
     ↔ Exists (λ value, (count_commas value < 2)%nat) prints)
  ∧ Forall (λ value, (List.length (SplitN value 3) ≤ 3)%nat) prints.
Proof.
  split_and!.
  - revert data. induction prints as [|value rest IH]; intros data.
    + split; [by constructor|done].
    + destruct (decide (2 ≤ count_commas value)%nat) as [Hc|Hc].
      * destruct (rrdParseInfo_cons_ok value rest data Hc) as [data' ->].
        rewrite IH. split; [by constructor|by intros [_ ?]%Forall_cons].
      * rewrite rrdParseInfo_cons_panic by lia. split; [done|].
        by intros [? _]%Forall_cons.
  - revert data. induction prints as [|value rest IH]; intros data.
    + split; [done|by intros ?%Exists_nil].
    + destruct (decide (2 ≤ count_commas value)%nat) as [Hc|Hc].
      * destruct (rrdParseInfo_cons_ok value rest data Hc) as [data' ->].
        rewrite IH, Exists_cons. split; [by right|]. intros [?|?]; [lia|done].
      * rewrite rrdParseInfo_cons_panic by lia. split; [|done].
        intros _. apply Exists_cons. left. lia.
  - apply Forall_forall. intros value _. rewrite SplitN_3_length. lia.
Qed.

End ParseInfoFacts.

(** ** float64 *)

Section Float64Facts.

Local Open Scope Z_scope.

Lemma shiftl_pos_nonneg m e : 0 ≤ Z.shiftl (Zpos m) e.
Proof. apply Z.shiftl_nonneg. lia. Qed.

(** The conversion of an integer that fits the mantissa is exact. *)
Lemma of_int_small (s : bool) (a : Z) :
  0 < a → a < 2 ^ 53 →
  of_int (if s then - a else a) = S754_finite s (Z.to_pos a) 0.
Proof.
  intros Ha Hlt. unfold of_int.
  assert (Hlog : Z.log2 a < 53) by (apply Z.log2_lt_pow2; lia).
  destruct s.
  - rewrite (proj2 (Z.eqb_neq _ _)) by lia.
    rewrite Z.abs_opp, Z.abs_eq by lia.
    rewrite (proj2 (Z.leb_le _ _)) by lia.
    by rewrite (proj2 (Z.ltb_lt _ _)) by lia.
  - rewrite (proj2 (Z.eqb_neq _ _)) by lia.
    rewrite Z.abs_eq by lia.
    rewrite (proj2 (Z.leb_le _ _)) by lia.
    by rewrite (proj2 (Z.ltb_ge _ _)) by lia.
Qed.

(** The conversion of [M * 2 ^ e] with a mantissa [M] of 53 bits at most
    is exact as well: the bits that are dropped are zeros. *)
Lemma of_int_shifted (s : bool) (M e : Z) :
  0 < M → M < 2 ^ 53 → 0 ≤ e →
  let a := M * 2 ^ e in
  let k := Z.log2 a + 1 - 53 in
  0 < k →
  k ≤ e
  ∧ of_int (if s then - a else a) = S754_finite s (Z.to_pos (M * 2 ^ (e - k))) k.
Proof.
  intros HM Hlt He a k Hk.
  assert (Hlog : Z.log2 M < 53) by (apply Z.log2_lt_pow2; lia).
  assert (Ha : 0 < a) by (unfold a; apply Z.mul_pos_pos; [lia|by apply Z.pow_pos_nonneg]).
  assert (Hla : Z.log2 a = e + Z.log2 M).
  { unfold a. by apply Z.log2_mul_pow2. }
  assert (Hke : k ≤ e) by (unfold k; lia).
  split; [done|].
  assert (Hsplit : a = M * 2 ^ (e - k) * 2 ^ k).
  { unfold a. rewrite <- Z.mul_assoc, <- Z.pow_add_r by lia. do 2 f_equal. lia. }
  assert (Hq : Z.shiftr a k = M * 2 ^ (e - k)).
  { rewrite Z.shiftr_div_pow2 by lia. rewrite Hsplit.
    apply Z.div_mul. apply Z.pow_nonzero; lia. }
  assert (Hhalf : 0 < 2 ^ (k - 1)) by (apply Z.pow_pos_nonneg; lia).
  unfold of_int.
  assert (Habs : Z.abs (if s then - a else a) = a).
  { destruct s; [rewrite Z.abs_opp|]; apply Z.abs_eq; lia. }
  assert (Hsign : ((if s then - a else a) <? 0) = s).
  { destruct s; [apply Z.ltb_lt|apply Z.ltb_ge]; lia. }
  rewrite (proj2 (Z.eqb_neq _ _)) by (destruct s; lia).
  rewrite Habs, Hsign. fold k.
  rewrite (proj2 (Z.leb_gt _ _)) by lia.
  rewrite Hq, Z.shiftl_mul_pow2 by lia. rewrite <- Hsplit, Z.sub_diag.
  rewrite (proj2 (Z.ltb_ge _ _)) by lia.
  rewrite (proj2 (Z.eqb_neq _ _)) by lia.
  done.
Qed.

(** A binary64 number whose integer part fits the 64-bit integers
    differs in value from its integer part exactly when it is not a whole
    number. *)
Lemma sub_neq0_trunc (p : float64) :
  is_finite p = true → is_binary64 p = true → in_int64 (trunc p) = true →
  sub_neq0 p (of_int (to_int p)) = negb (is_whole p).
Proof.
  intros Hfin Hbin Hrange. unfold to_int. rewrite Hfin, Hrange. simpl.
  destruct p as [s|s| |s m e]; try discriminate.
  - by destruct s.
  - simpl in Hbin. apply andb_true_iff in Hbin as [[Hm _]%andb_true_iff _].
    apply Z.ltb_lt in Hm.
    unfold trunc. set (a := Z.shiftl (Zpos m) e).
    assert (Hfnum : Fnum (S754_finite s m e) = if s then - Zpos m else Zpos m)
      by (by destruct s).
    destruct (Z.le_gt_cases 0 e) as [He|He].
    + (* a whole number *)
      assert (Ha : a = Zpos m * 2 ^ e) by (unfold a; by apply Z.shiftl_mul_pow2).
      assert (Hw : is_whole (S754_finite s m e) = true).
      { simpl. by rewrite (proj2 (Z.leb_le _ _) He). }
      rewrite Hw. simpl negb.
      assert (Hpos : 0 < a).
      { rewrite Ha. apply Z.mul_pos_pos; [lia|by apply Z.pow_pos_nonneg]. }
      destruct (Z.le_gt_cases (Z.log2 a + 1 - 53) 0) as [Hk|Hk].
      * assert (Hsmall : a < 2 ^ 53).
        { apply Z.log2_lt_pow2; lia. }
        rewrite of_int_small by done.
        unfold sub_neq0. cbn [is_finite andb Fexp].
        rewrite Z.min_r by lia. rewrite Hfnum. cbn [Fnum].
        rewrite Z.sub_0_r, Z.sub_diag, Z.pow_0_r, Z.mul_1_r.
        apply negb_false_iff, Z.eqb_eq.
        destruct s.
        -- rewrite <- (Pos2Z.opp_pos (Z.to_pos a)), Z2Pos.id by lia. lia.
        -- rewrite Z2Pos.id by lia. lia.
      * rewrite Ha in Hk.
        destruct (of_int_shifted s (Zpos m) e ltac:(lia) Hm He Hk) as [Hke Hof].
        rewrite Ha, Hof. set (k := Z.log2 (Zpos m * 2 ^ e) + 1 - 53) in *.
        assert (Hq : 0 < Zpos m * 2 ^ (e - k)).
        { apply Z.mul_pos_pos; [lia|apply Z.pow_pos_nonneg; lia]. }
        unfold sub_neq0. cbn [is_finite andb Fexp].
        rewrite Z.min_r by lia. rewrite Hfnum. cbn [Fnum].
        rewrite Z.sub_diag, Z.pow_0_r, Z.mul_1_r.
        apply negb_false_iff, Z.eqb_eq.
        destruct s.
        -- rewrite <- (Pos2Z.opp_pos (Z.to_pos _)), Z2Pos.id by lia. lia.
        -- rewrite Z2Pos.id by lia. lia.
    + (* a negative exponent *)
      assert (Hd : 0 < 2 ^ (- e)) by (apply Z.pow_pos_nonneg; lia).
      assert (Ha : a = Zpos m / 2 ^ (- e)) by (unfold a; apply Z.shiftl_div_pow2; lia).
      assert (Hw : is_whole (S754_finite s m e) = (Zpos m mod 2 ^ (- e) =? 0)).
      { simpl. by rewrite (proj2 (Z.leb_gt _ _) He). }
      rewrite Hw.
      pose proof (Z.div_mod (Zpos m) (2 ^ (- e)) ltac:(lia)) as Hdm.
      pose proof (Z.mod_pos_bound (Zpos m) (2 ^ (- e)) Hd) as Hmod.
      assert (Ha0 : 0 ≤ a) by (rewrite Ha; apply Z.div_pos; lia).
      assert (Hale : a ≤ Zpos m).
      { rewrite Ha. apply Z.div_le_upper_bound; [lia|]. nia. }
      destruct (Z.eq_dec a 0) as [Hz|Hnz].
      * replace (if s then - a else a) with 0 by (rewrite Hz; by destruct s).
        change (of_int 0) with (S754_zero false).
        unfold sub_neq0. cbn [is_finite andb Fexp Fnum].
        rewrite Z.min_l by lia. rewrite Z.sub_diag, Z.pow_0_r, Z.mul_1_r, Z.mul_0_l.
        f_equal. rewrite Ha in Hz. rewrite Hz in Hdm.
        transitivity false; [destruct s; apply Z.eqb_neq; lia|].
        symmetry. apply Z.eqb_neq. lia.
      * rewrite of_int_small by lia.
        unfold sub_neq0. cbn [is_finite andb Fexp].
        rewrite Z.min_l by lia. rewrite Hfnum. cbn [Fnum].
        rewrite Z.sub_diag, Z.pow_0_r, Z.mul_1_r. change (0 - e) with (- e).
        f_equal.
        assert (Hto : Z.pos (Z.to_pos a) = a) by (apply Z2Pos.id; lia).
        destruct (Z.eq_dec (Zpos m mod 2 ^ (- e)) 0) as [Hm0|Hm0].
        -- rewrite (proj2 (Z.eqb_eq _ _) Hm0). apply Z.eqb_eq.
           destruct s.
           ++ rewrite <- (Pos2Z.opp_pos (Z.to_pos a)), Hto. rewrite Ha. nia.
           ++ rewrite Hto, Ha. nia.
        -- rewrite (proj2 (Z.eqb_neq _ _) Hm0). apply Z.eqb_neq.
           destruct s.
           ++ rewrite <- (Pos2Z.opp_pos (Z.to_pos a)), Hto. rewrite Ha. nia.
           ++ rewrite Hto, Ha. nia.
Qed.

(** The comparison of values on the binary64 arithmetic of the machine,
    for the two percentiles of the specification, one half and a negative
    number: it agrees with the test on the primitive subtraction. *)
Example sub_neq0_on_primitive_floats :
  sub_neq0 (Prim2SF 50%float) (of_int 50)
  = negb (PrimFloat.eqb
            (PrimFloat.sub 50%float (PrimFloat.of_uint63 (Uint63.of_Z 50))) 0%float)
  ∧ sub_neq0 (Prim2SF 95.5%float) (of_int 95)
    = negb (PrimFloat.eqb
              (PrimFloat.sub 95.5%float (PrimFloat.of_uint63 (Uint63.of_Z 95))) 0%float)
  ∧ sub_neq0 (Prim2SF 0.5%float) (of_int 0)
    = negb (PrimFloat.eqb
              (PrimFloat.sub 0.5%float (PrimFloat.of_uint63 (Uint63.of_Z 0))) 0%float)
  ∧ sub_neq0 (Prim2SF (-2.25)%float) (of_int (-2))
    = negb (PrimFloat.eqb
              (PrimFloat.sub (-2.25)%float
                 (PrimFloat.opp (PrimFloat.of_uint63 (Uint63.of_Z 2)))) 0%float).
Proof. repeat split; reflexivity. Qed.

(** The conversion of an integer agrees with the one of the machine,
    also where it rounds. *)
Example of_int_on_primitive_floats :
  PrimFloat.eqb (SF2Prim (of_int 95)) (PrimFloat.of_uint63 (Uint63.of_Z 95)) = true
  ∧ PrimFloat.eqb (SF2Prim (of_int 9007199254740993))
      (PrimFloat.of_uint63 (Uint63.of_Z 9007199254740993)) = true
  ∧ PrimFloat.eqb (SF2Prim (of_int 9007199254740995))
      (PrimFloat.of_uint63 (Uint63.of_Z 9007199254740995)) = true.
Proof. repeat split; reflexivity. Qed.

End Float64Facts.

Section SubtractionFacts.

Local Open Scope Z_scope.

Lemma digits2_pos_size p : digits2_pos p = Pos.size p.
Proof. induction p; simpl; by rewrite ?IHp. Qed.

(** A positive number has as many bits as [digits2_pos] says. *)
Lemma digits2_pos_bounds p :
  2 ^ (Zpos (digits2_pos p) - 1) ≤ Zpos p < 2 ^ Zpos (digits2_pos p).
Proof.
  rewrite digits2_pos_size.
  induction p as [p IH|p IH|]; [| |by vm_compute].
  - simpl Pos.size. rewrite Pos2Z.inj_succ.
    change (Z.pos p~1) with (2 * Z.pos p + 1).
    replace (Z.succ (Z.pos (Pos.size p)) - 1) with (Z.succ (Z.pos (Pos.size p) - 1))
      by lia.
    rewrite !Z.pow_succ_r by lia. lia.
  - simpl Pos.size. rewrite Pos2Z.inj_succ.
    change (Z.pos p~0) with (2 * Z.pos p).
    replace (Z.succ (Z.pos (Pos.size p)) - 1) with (Z.succ (Z.pos (Pos.size p) - 1))
      by lia.
    rewrite !Z.pow_succ_r by lia. lia.
Qed.

Lemma shr_1_m mrs : 0 ≤ shr_m mrs → shr_m (shr_1 mrs) = Z.div2 (shr_m mrs).
Proof. destruct mrs as [[|[p|p|]|p] r s]; simpl; done || lia. Qed.

(** Shifting a mantissa to the right divides it. *)
Lemma iter_shr_1_m p :
  ∀ mrs, 0 ≤ shr_m mrs →
  shr_m (iter_pos shr_1 p mrs) = Z.shiftr (shr_m mrs) (Zpos p).
Proof.
  assert (Hnn : ∀ a n, 0 ≤ a → 0 ≤ Z.shiftr a n)
    by (intros a n Ha; by apply Z.shiftr_nonneg).
  induction p as [p IH|p IH|]; intros mrs Hm; simpl iter_pos.
  - assert (H1 : shr_m (shr_1 mrs) = Z.shiftr (shr_m mrs) 1)
      by (rewrite shr_1_m by done; apply Z.div2_spec).
    assert (H2 : shr_m (iter_pos shr_1 p (shr_1 mrs))
                 = Z.shiftr (Z.shiftr (shr_m mrs) 1) (Z.pos p)).
    { rewrite IH, H1; [done|]. rewrite H1. by apply Hnn. }
    rewrite IH, H2.
    + rewrite !Z.shiftr_shiftr by lia. f_equal. lia.
    + rewrite H2. by apply Hnn, Hnn.
  - assert (H2 : shr_m (iter_pos shr_1 p mrs) = Z.shiftr (shr_m mrs) (Z.pos p))
      by (by apply IH).
    rewrite IH, H2.
    + rewrite !Z.shiftr_shiftr by lia. f_equal. lia.
    + rewrite H2. by apply Hnn.
  - rewrite shr_1_m by done. apply Z.div2_spec.
Qed.

(** Bringing a positive mantissa to the exponent of the format leaves it
    positive, as long as the exponent is not below the smallest one. *)
Lemma shr_fexp_positive m e l :
  0 < m → -1074 ≤ e →
  let '(mrs, e') := shr_fexp prec emax m e l in
  0 < shr_m mrs ∧ -1074 ≤ e'.
Proof.
  intros Hm He. unfold shr_fexp, shr.
  assert (Hemin : SpecFloat.emin prec emax = -1074) by done.
  assert (Hrec : shr_m (shr_record_of_loc m l) = m) by (by destruct l as [|[]]).
  destruct m as [|p|p]; try lia. simpl Zdigits2.
  destruct (fexp prec emax (Z.pos (digits2_pos p) + e) - e) as [|n|n] eqn:Hn;
    [by rewrite Hrec..| |by rewrite Hrec].
  rewrite iter_shr_1_m by (rewrite Hrec; lia). rewrite Hrec.
  unfold fexp in Hn. rewrite Hemin in Hn.
  pose proof (digits2_pos_bounds p) as [Hlo Hhi].
  assert (Hnp : Z.pos n ≤ Z.pos (digits2_pos p) - 1) by (unfold prec in *; lia).
  split; [|lia].
  rewrite Z.shiftr_div_pow2 by lia. apply Z.div_str_pos. split.
  - apply Z.pow_pos_nonneg; lia.
  - etransitivity; [|exact Hlo]. apply Z.pow_le_mono_r; lia.
Qed.

Lemma round_nearest_even_positive m l : 0 < m → 0 < round_nearest_even m l.
Proof.
  intros Hm. destruct l as [|[]]; simpl; try lia. destruct (Z.even m); lia.
Qed.

(** Rounding a number that is not zero never gives a zero: the format
    has the subnormal numbers. *)
Lemma binary_round_aux_neq0 sx m e l :
  0 < m → -1074 ≤ e →
  neq0 (binary_round_aux prec emax sx m e l) = true.
Proof.
  intros Hm He. unfold binary_round_aux.
  pose proof (shr_fexp_positive m e l Hm He) as H1.
  destruct (shr_fexp prec emax m e l) as [mrs' e']. destruct H1 as [Hm' He'].
  pose proof (shr_fexp_positive _ e' loc_Exact
                (round_nearest_even_positive _ (loc_of_shr_record mrs') Hm') He')
    as H2.
  destruct (shr_fexp prec emax _ e' loc_Exact) as [mrs'' e'']. destruct H2 as [Hm'' _].
  destruct (shr_m mrs'') as [|p|p]; try lia.
  by destruct (e'' <=? emax - prec).
Qed.

Lemma binary_round_neq0 sx m e :
  -1074 ≤ e → neq0 (binary_round prec emax sx m e) = true.
Proof.
  intros He. unfold binary_round.
  destruct (shl_align m e _) as [mz ez] eqn:Hal.
  apply binary_round_aux_neq0; [lia|].
  unfold shl_align in Hal.
  destruct (fexp prec emax (Z.pos (digits2_pos m) + e) - e) eqn:Hd;
    injection Hal as <- <-; try done.
  unfold fexp. change (SpecFloat.emin prec emax) with (-1074). lia.
Qed.

(** Aligning a mantissa to a smaller exponent multiplies it. *)
Lemma shl_align_fst m e e' :
  e' ≤ e → Zpos (fst (shl_align m e e')) = Zpos m * 2 ^ (e - e').
Proof.
  intros He. unfold shl_align.
  destruct (e' - e) as [|d|d] eqn:Hd; try lia.
  - replace (e - e') with 0 by lia. simpl. lia.
  - replace (e - e') with (Zpos d) by lia. simpl fst.
    clear. induction d as [|d IH] using Pos.peano_ind.
    + simpl. lia.
    + rewrite Pos.iter_succ, Pos2Z.inj_succ, Z.pow_succ_r by lia.
      change (Z.pos (Pos.iter xO m d)~0) with (2 * Z.pos (Pos.iter xO m d)).
      rewrite IH. lia.
Qed.

(** The difference of two finite numbers is a zero exactly when they
    have the same value. *)
Lemma sub_neq0_value (x y : float64) :
  is_finite x = true → is_finite y = true →
  -1074 ≤ Fexp x → -1074 ≤ Fexp y →
  neq0 (sub x y) = sub_neq0 x y.
Proof.
  intros Hx Hy Hex Hey. unfold sub_neq0. rewrite Hx, Hy. cbn [andb].
  destruct x as [sx|sx| |sx mx ex], y as [sy|sy| |sy my ey]; try discriminate.
  - by destruct sx, sy.
  - change (neq0 (sub (S754_zero sx) (S754_finite sy my ey))) with true.
    symmetry. apply negb_true_iff, Z.eqb_neq. cbn [Fnum Fexp].
    assert (0 < 2 ^ (ey - Z.min 0 ey)) by (apply Z.pow_pos_nonneg; lia).
    destruct sy; lia.
  - change (neq0 (sub (S754_finite sx mx ex) (S754_zero sy))) with true.
    symmetry. apply negb_true_iff, Z.eqb_neq. cbn [Fnum Fexp].
    assert (0 < 2 ^ (ex - Z.min ex 0)) by (apply Z.pow_pos_nonneg; lia).
    destruct sx; lia.
  - cbn [Fexp] in *. unfold sub, SFsub.
    set (ez := Z.min ex ey).
    rewrite !shl_align_fst by (unfold ez; lia).
    assert (Hfx : cond_Zopp sx (Z.pos mx * 2 ^ (ex - ez))
                  = Fnum (S754_finite sx mx ex) * 2 ^ (ex - ez))
      by (destruct sx; simpl; lia).
    assert (Hfy : cond_Zopp sy (Z.pos my * 2 ^ (ey - ez))
                  = Fnum (S754_finite sy my ey) * 2 ^ (ey - ez))
      by (destruct sy; simpl; lia).
    rewrite Hfx, Hfy.
    set (a := Fnum (S754_finite sx mx ex) * 2 ^ (ex - ez)).
    set (b := Fnum (S754_finite sy my ey) * 2 ^ (ey - ez)).
    assert (Hez : -1074 ≤ ez) by (unfold ez; lia).
    unfold binary_normalize.
    destruct (a - b) as [|d|d] eqn:Hd.
    + simpl. symmetry. apply negb_false_iff, Z.eqb_eq. lia.
    + rewrite binary_round_neq0 by done.
      symmetry. apply negb_true_iff, Z.eqb_neq. lia.
    + rewrite binary_round_neq0 by done.
      symmetry. apply negb_true_iff, Z.eqb_neq. lia.
Qed.

(** A converted integer is finite and its exponent is not negative. *)
Lemma of_int_finite n : is_finite (of_int n) = true ∧ 0 ≤ Fexp (of_int n).
Proof.
  unfold of_int. destruct (n =? 0); [done|].
  destruct (Z.leb_spec (Z.log2 (Z.abs n) + 1 - 53) 0); simpl; [done|].
  split; [done|lia].
Qed.

(** The test of [rrdSetGraph], [percentile - float64(int(percentile))
    != 0], compares the values of the percentile and of its integer
    part. *)
Lemma percentile_test_value (p : float64) :
  is_finite p = true → is_binary64 p = true →
  neq0 (sub p (of_int (to_int p))) = sub_neq0 p (of_int (to_int p)).
Proof.
  intros Hfin Hbin. destruct (of_int_finite (to_int p)) as [Hf He].
  apply sub_neq0_value; [done|done| |lia].
  destruct p as [s|s| |s m e]; simpl; try lia.
  simpl in Hbin. apply andb_true_iff in Hbin as [[_ Hlo]%andb_true_iff _].
  by apply Z.leb_le.
Qed.

End SubtractionFacts.

Section PercentileFacts.

Local Open Scope Z_scope.

(** C5, amended: for a finite percentile whose integer part fits the
    64-bit integers, the label of the statistic is the percentile with no
    decimals followed by [th] when it is a whole number, and with two
    decimals followed by [th] when it is not. *)
Theorem percentile_label_format (vname itemName : string) (p : float64) :
  is_finite p = true → is_binary64 p = true → in_int64 (trunc p) = true →
  percentile_Print vname itemName p
  = GPrint vname
      (itemName +:+ "," +:+ (if is_whole p then FormatF 0 p else FormatF 2 p)
       +:+ "th,%lf").
Proof.
  intros Hfin Hbin Hrange. unfold percentile_Print.
  rewrite percentile_test_value, sub_neq0_trunc by done.
  by destruct (is_whole p).
Qed.

Lemma percentile_label_format_witness :
  (is_finite p95_5 = true ∧ is_binary64 p95_5 = true
   ∧ in_int64 (trunc p95_5) = true)
  ∧ percentile_Print "serie0-vdef0" "cpu" p95_5
    = GPrint "serie0-vdef0"
        ("cpu" +:+ "," +:+ (if is_whole p95_5 then FormatF 0 p95_5
                            else FormatF 2 p95_5) +:+ "th,%lf").
Proof.
  split; [repeat split; reflexivity|].
  apply (percentile_label_format "serie0-vdef0" "cpu" p95_5); reflexivity.
Defined.

(** The two percentiles of the specification. *)
Example percentile_50_label :
  is_whole p50 = true
  ∧ percentile_Print "serie0-vdef0" "cpu" p50 = GPrint "serie0-vdef0" "cpu,50th,%lf"
  ∧ SplitN "cpu,50th,%lf" 3 = ["cpu"; "50th"; "%lf"]%string.
Proof. repeat split; reflexivity. Qed.

Example percentile_95_5_label :
  is_whole p95_5 = false
  ∧ percentile_Print "serie0-vdef0" "cpu" p95_5
    = GPrint "serie0-vdef0" "cpu,95.50th,%lf"
  ∧ SplitN "cpu,95.50th,%lf" 3 = ["cpu"; "95.50th"; "%lf"]%string.
Proof. repeat split; reflexivity. Qed.

(** [2 ^ 64] is a whole number, and its label has two decimals: the
    integer it is compared with is not [2 ^ 64]. *)
Lemma percentile_label_beyond_int64 :
  is_finite p2_64 = true ∧ is_whole p2_64 = true
  ∧ percentile_Print "serie0-vdef0" "cpu" p2_64
    = GPrint "serie0-vdef0" "cpu,18446744073709551616.00th,%lf"
  ∧ percentile_Print "serie0-vdef0" "cpu" p2_64
    ≠ GPrint "serie0-vdef0" ("cpu" +:+ "," +:+ FormatF 0 p2_64 +:+ "th,%lf").
Proof. vm_compute. repeat split; [reflexivity..|discriminate]. Qed.

End PercentileFacts.

Section ConversionFacts.

Local Open Scope Z_scope.

(** The conversion of a 64-bit integer never exceeds [2 ^ 63] in
    magnitude. *)
Lemma of_int_magnitude (n : Z) :
  n ≠ 0 → Z.abs n ≤ 2 ^ 63 →
  ∃ s m k, of_int n = S754_finite s m k ∧ 0 ≤ k ∧ Zpos m * 2 ^ k ≤ 2 ^ 63.
Proof.
  intros Hn Hle. unfold of_int.
  rewrite (proj2 (Z.eqb_neq _ _) Hn).
  set (a := Z.abs n) in *. assert (Ha : 0 < a) by (unfold a; lia).
  set (k := Z.log2 a + 1 - 53).
  destruct (Z.leb_spec k 0) as [Hk|Hk].
  - exists (n <? 0), (Z.to_pos a), 0. split_and!; [done|lia|].
    rewrite Z2Pos.id by lia. lia.
  - destruct (Z.log2_spec a Ha) as [Hlo Hhi].
    destruct (Z.eq_dec a (2 ^ 63)) as [Hmax|Hmax].
    + exists (n <? 0), (Z.to_pos (2 ^ 52)), 11.
      unfold k. rewrite Hmax. vm_compute. split_and!; [done|discriminate..].
    + assert (Hlog : Z.log2 a < 63) by (apply Z.log2_lt_pow2; lia).
      assert (Hpk : 0 < 2 ^ k) by (apply Z.pow_pos_nonneg; lia).
      set (q := Z.shiftr a k).
      assert (Hq : q = a / 2 ^ k) by (unfold q; apply Z.shiftr_div_pow2; lia).
      assert (Hqhi : q < 2 ^ 53).
      { rewrite Hq. apply Z.div_lt_upper_bound; [done|].
        rewrite <- Z.pow_add_r by lia.
        replace (k + 53) with (Z.succ (Z.log2 a)) by (unfold k; lia). done. }
      assert (Hqlo : 0 < q).
      { rewrite Hq. apply Z.div_str_pos. split; [done|].
        etransitivity; [|exact Hlo]. apply Z.pow_le_mono_r; unfold k; lia. }
      set (r := a - Z.shiftl q k). set (half := 2 ^ (k - 1)).
      set (q' := if (half <? r) || ((half =? r) && Z.odd q) then q + 1 else q).
      assert (Hq' : 0 < q' ≤ 2 ^ 53) by (unfold q'; destruct (_ || _); lia).
      exists (n <? 0), (Z.to_pos q'), k. split_and!; [done|lia|].
      rewrite Z2Pos.id by lia.
      transitivity (2 ^ 53 * 2 ^ k); [apply Z.mul_le_mono_nonneg_r; lia|].
      rewrite <- Z.pow_add_r by lia. apply Z.pow_le_mono_r; unfold k; lia.
Qed.

(** Whatever 64-bit integer the conversion of [2 ^ 64] yields, it is not
    [2 ^ 64] once converted back: the label of that percentile has two
    decimals under every implementation of the conversion. *)
Lemma beyond_int64_any_conversion (n : Z) :
  in_int64 n = true → neq0 (sub p2_64 (of_int n)) = true.
Proof.
  intros Hn. destruct (of_int_finite n) as [Hfin Hexp].
  rewrite sub_neq0_value; [|by vm_compute|done|by vm_compute|lia].
  clear Hfin Hexp. unfold in_int64, min_int64, max_int64 in Hn.
  apply andb_true_iff in Hn as [Hlo%Z.leb_le Hhi%Z.leb_le].
  assert (Hp : p2_64 = S754_finite false 4503599627370496 12)
    by (vm_compute; reflexivity).
  rewrite Hp. destruct (Z.eq_dec n 0) as [->|Hnz]; [done|].
  destruct (of_int_magnitude n Hnz) as (s & m & k & -> & Hk & Hbound); [lia|].
  unfold sub_neq0. cbn [is_finite andb Fexp Fnum].
  apply negb_true_iff, Z.eqb_neq. intros Heq.
  set (e0 := Z.min 12 k) in *.
  assert (He0 : 0 ≤ e0 ≤ 12 ∧ e0 ≤ k) by (unfold e0; lia).
  assert (Hscaled : 4503599627370496 * 2 ^ 12
                    = (if s then Z.neg m else Z.pos m) * 2 ^ k).
  { assert (H12 : 2 ^ 12 = 2 ^ (12 - e0) * 2 ^ e0).
    { rewrite <- Z.pow_add_r by lia. f_equal. lia. }
    assert (Hk2 : 2 ^ k = 2 ^ (k - e0) * 2 ^ e0).
    { rewrite <- Z.pow_add_r by lia. f_equal. lia. }
    rewrite H12, Hk2, !Z.mul_assoc. by rewrite Heq. }
  change (4503599627370496 * 2 ^ 12) with (2 ^ 64) in Hscaled.
  assert (Hpk : 0 < 2 ^ k) by (apply Z.pow_pos_nonneg; lia).
  destruct s.
  - assert (Z.neg m * 2 ^ k < 0) by (apply Z.mul_neg_pos; lia). lia.
  - assert (2 ^ 63 < 2 ^ 64) by done. lia.
Qed.

End ConversionFacts.

(** ** Aggregation *)

Section AggregationFacts.

(** C2, on the failing input: an average over three series of which the
    second has no Metric. The two contributing series, at 6 and 3, are
    added, and the sum is divided by 3, the number of series of the
    query, which gives 3; the average of the contributing series is 9/2.
    With a group scale of 2.5 the result, 15/2, is the scaled quotient,
    the scale coming last. *)
Theorem Avg_divides_by_all_series :
  (∃ p,
     plan_group load_handler avg_query [] true = Ret p
     ∧ GCDef "serie0-orig" "serie0-tmp0,serie0-tmp2,+,3,/" ∈ graph p
     ∧ GCDef "serie0" "serie0-orig" ∈ graph p
     ∧ ∃ v, RPN.define load_samples (graph p) ∅ ≫= (.!! "serie0") = Some v
            ∧ QArith_base.Qeq v (QArith_base.Qmake 3 1)
            ∧ ¬ QArith_base.Qeq v (QArith_base.Qmake 9 2))
  ∧ (∃ p,
     plan_group load_handler scaled_avg_query [] true = Ret p
     ∧ GCDef "serie0-orig" "serie0-tmp0,serie0-tmp2,+,3,/" ∈ graph p
     ∧ GCDef "serie0" "serie0-orig,2.500000,*" ∈ graph p
     ∧ ∃ v, RPN.define load_samples (graph p) ∅ ≫= (.!! "serie0") = Some v
            ∧ QArith_base.Qeq v (QArith_base.Qmake 15 2)).
Proof.
  split.
  - eexists. split; [vm_compute; reflexivity|].
    split; [cbn [graph]; set_solver|].
    split; [cbn [graph]; set_solver|].
    eexists. split; [vm_compute; reflexivity|]. by vm_compute.
  - eexists. split; [vm_compute; reflexivity|].
    split; [cbn [graph]; set_solver|].
    split; [cbn [graph]; set_solver|].
    eexists. split; [vm_compute; reflexivity|]. by vm_compute.
Qed.

(** When every series has its Metric, the divisor is the number of
    contributing series: two series at 6 and 3 average to 9/2. *)
Example Avg_of_two_present_series :
  ∃ p,
    plan_group load_handler
      (mkGroupQuery "load" OperGroupTypeAvg
         [mkSerie "first" (Some load1) no_scale;
          mkSerie "second" (Some load2) no_scale] no_scale) [] true = Ret p
    ∧ GCDef "serie0-orig" "serie0-tmp0,serie0-tmp1,+,2,/" ∈ graph p
    ∧ ∃ v, RPN.define load_samples (graph p) ∅ ≫= (.!! "serie0") = Some v
           ∧ QArith_base.Qeq v (QArith_base.Qmake 9 2).
Proof.
  eexists. split; [vm_compute; reflexivity|].
  split; [cbn [graph]; set_solver|].
  eexists. split; [vm_compute; reflexivity|]. by vm_compute.
Qed.

End AggregationFacts.

(** ** The value of an average *)

Section AverageFacts.

Import QArith_base.

(** *** Numerals and names as tokens *)

Lemma string_of_uint_all_digits d : all_digits (NilEmpty.string_of_uint d) = true.
Proof. induction d; simpl; auto. Qed.

Lemma is_digit_not_comma c : is_digit c = true → Ascii.eqb c "," = false.
Proof. destruct c as [[] [] [] [] [] [] [] []]; done. Qed.

Lemma is_digit_not_dot c : is_digit c = true → Ascii.eqb c "." = false.
Proof. destruct c as [[] [] [] [] [] [] [] []]; done. Qed.

Lemma all_digits_no_comma s : all_digits s = true → count_commas s = 0%nat.
Proof.
  induction s as [|c s IH]; simpl; [done|].
  intros [Hc Hs]%andb_true_iff. rewrite (is_digit_not_comma _ Hc). auto.
Qed.

Lemma all_digits_no_dot s : all_digits s = true → cut_at "." s = None.
Proof.
  induction s as [|c s IH]; simpl; [done|].
  intros [Hc Hs]%andb_true_iff. rewrite (is_digit_not_dot _ Hc), IH; done.
Qed.

(** The decimal numeral of a natural number. *)
Lemma Itoa_nat n :
  Itoa (Z.of_nat n) = NilEmpty.string_of_uint (N.to_uint (N.of_nat n))
  ∧ Itoa (Z.of_nat n) ≠ "".
Proof.
  unfold Itoa. destruct n as [|n]; [done|].
  change (Z.of_nat (S n)) with (Z.pos (Pos.of_succ_nat n)).
  change (N.of_nat (S n)) with (N.pos (Pos.of_succ_nat n)).
  pose proof (DecimalPos.Unsigned.to_uint_nonnil (Pos.of_succ_nat n)) as Hnil.
  unfold Z.to_int, N.to_uint, NilZero.string_of_int, NilZero.string_of_uint.
  destruct (Pos.to_uint (Pos.of_succ_nat n)); done.
Qed.

Lemma Itoa_nat_no_comma n : count_commas (Itoa (Z.of_nat n)) = 0%nat.
Proof.
  destruct (Itoa_nat n) as [-> _].
  apply all_digits_no_comma, string_of_uint_all_digits.
Qed.

(** A numeral is read back as the number it stands for. *)
Lemma parse_number_Itoa n :
  RPN.parse_number (Itoa (Z.of_nat n)) = Some (Qmake (Z.of_nat n) 1).
Proof.
  destruct (Itoa_nat n) as [Heq Hne]. revert Hne. rewrite Heq.
  set (d := N.to_uint (N.of_nat n)).
  pose proof (string_of_uint_all_digits d) as Hd.
  assert (Hback : N.of_uint <$> NilEmpty.uint_of_string (NilEmpty.string_of_uint d)
                  = Some (N.of_nat n)).
  { rewrite NilEmpty.usu. simpl. f_equal. apply DecimalN.Unsigned.of_to. }
  destruct (NilEmpty.string_of_uint d) as [|c s] eqn:Es; [done|]. intros _.
  unfold RPN.parse_number.
  assert (Hc : is_digit c = true) by (simpl in Hd; by apply andb_true_iff in Hd as [? _]).
  destruct c as [[] [] [] [] [] [] [] []]; try discriminate Hc;
    rewrite (all_digits_no_dot _ Hd); unfold RPN.nat_of_digits;
    rewrite Hback; simpl; do 2 f_equal; lia.
Qed.

(** A name that starts with a letter is not a number. *)
Lemma parse_number_name rest : RPN.parse_number (String "s" rest) = None.
Proof.
  unfold RPN.parse_number. simpl.
  assert (H : ∀ r, RPN.nat_of_digits (String "s" r) = None).
  { intros r. unfold RPN.nat_of_digits. simpl.
    by destruct (NilEmpty.uint_of_string r). }
  destruct (cut_at "." rest) as [[a b]|]; by rewrite H.
Qed.

(** *** Joining and splitting *)

Lemma cut_at_comma_free t rest :
  count_commas t = 0%nat →
  cut_at "," (t +:+ String "," rest) = Some (t, rest).
Proof.
  induction t as [|c t IH]; simpl; [done|].
  destruct (Ascii.eqb c ","); [done|]. intros Ht. by rewrite IH.
Qed.

Lemma cut_at_comma_free_None t : count_commas t = 0%nat → cut_at "," t = None.
Proof.
  induction t as [|c t IH]; simpl; [done|].
  destruct (Ascii.eqb c ","); [done|]. intros Ht. by rewrite IH.
Qed.

Lemma Join_cons t t' ts : Join (t :: t' :: ts) = t +:+ String "," (Join (t' :: ts)).
Proof. done. Qed.

Lemma SplitN_step s n :
  SplitN s (S (S n)) = match cut_at "," s with
                       | Some (a, b) => a :: SplitN b (S n)
                       | None => [s]
                       end.
Proof. done. Qed.

(** Splitting what [Join] has joined gives the tokens back, when no
    token has a comma and the limit is large enough. *)
Lemma SplitN_Join ts :
  ∀ t n,
  Forall (λ t, count_commas t = 0%nat) (t :: ts) →
  (List.length ts < n)%nat →
  SplitN (Join (t :: ts)) n = t :: ts.
Proof.
  induction ts as [|t' ts IH]; intros t n Hfree Hn.
  - apply Forall_cons in Hfree as [Ht _].
    destruct n as [|[|n]]; [simpl in Hn; lia|done|].
    by rewrite SplitN_step, cut_at_comma_free_None.
  - apply Forall_cons in Hfree as [Ht Hfree].
    destruct n as [|[|n]]; [simpl in Hn; lia..|].
    rewrite Join_cons, SplitN_step, cut_at_comma_free by done.
    f_equal. apply IH; [done|]. simpl in *. lia.
Qed.

Lemma length_append (a b : string) :
  String.length (a +:+ b) = (String.length a + String.length b)%nat.
Proof. induction a as [|c a IH]; simpl; [done|]. by rewrite IH. Qed.

Lemma Join_length t ts : (List.length ts ≤ String.length (Join (t :: ts)))%nat.
Proof.
  revert t. induction ts as [|t' ts IH]; intros t; [simpl; lia|].
  rewrite Join_cons, length_append. cbn [String.length List.length].
  specialize (IH t'). lia.
Qed.

Lemma all_pieces_Join t ts :
  Forall (λ t, count_commas t = 0%nat) (t :: ts) →
  RPN.all_pieces (Join (t :: ts)) = t :: ts.
Proof.
  intros Hfree. unfold RPN.all_pieces. apply SplitN_Join; [done|].
  pose proof (Join_length t ts). lia.
Qed.

(** *** Running an expression *)

Lemma run_name env tok rest st v :
  RPN.is_name tok → env !! tok = Some v →
  RPN.run env (tok :: rest) st = RPN.run env rest (v :: st).
Proof.
  intros (H1 & H2 & H3 & H4 & H5 & H6) Hv. cbn [RPN.run].
  by rewrite H1, H2, H3, H4, H5, H6, Hv.
Qed.

Lemma temp_name_is_name index : RPN.is_name (RPN.temp_name index).
Proof.
  unfold RPN.is_name, RPN.temp_name. simpl. split_and!; try done.
  apply parse_number_name.
Qed.

Lemma temp_name_no_comma index : count_commas (RPN.temp_name index) = 0%nat.
Proof. unfold RPN.temp_name. simpl. apply Itoa_nat_no_comma. Qed.

(** The tokens [t, +] for each further input add its sample to the
    value on top of the stack. *)
Lemma run_additions env (value : nat → Q) indices :
  ∀ rest acc st,
  (∀ i, i ∈ indices → env !! RPN.temp_name i = Some (value i)) →
  RPN.run env (List.concat ((λ i, [RPN.temp_name i; "+"]) <$> indices) ++ rest)
    (acc :: st)
  = RPN.run env rest (fold_left Qplus (value <$> indices) acc :: st).
Proof.
  induction indices as [|i indices IH]; intros rest acc st Henv; [done|].
  cbn [fmap list_fmap List.concat]. rewrite <- app_assoc. cbn [app].
  rewrite (run_name env _ _ _ (value i))
    by (apply temp_name_is_name || apply Henv, list_elem_of_here).
  cbn [RPN.run String.eqb Ascii.eqb Bool.eqb].
  rewrite IH; [done|]. intros j Hj. apply Henv. by apply list_elem_of_further.
Qed.

Lemma run_number env tok rest st v :
  RPN.parse_number tok = Some v →
  RPN.run env (tok :: rest) st = RPN.run env rest (v :: st).
Proof.
  intros Hv. cbn [RPN.run].
  destruct (String.eqb_spec tok "+") as [->|_]; [done|].
  destruct (String.eqb_spec tok "*") as [->|_]; [done|].
  destruct (String.eqb_spec tok "/") as [->|_]; [done|].
  destruct (String.eqb_spec tok "UN") as [->|_]; [done|].
  destruct (String.eqb_spec tok "IF") as [->|_]; [done|].
  by rewrite Hv.
Qed.

(** *** The stack of a group *)

Lemma plan_fold_name index :
  "serie0" +:+ "-tmp" +:+ Itoa (Z.of_nat index) = RPN.temp_name index.
Proof. done. Qed.

(** Once the stack has its first input, each further input adds its
    name and [+]. *)
Lemma plan_fold_stack_grows h infoOnly l :
  ∀ index g x stack g' x' stack',
  stack ≠ [] →
  plan_fold h "serie0" infoOnly l index g x stack = Ret (g', x', stack') →
  stack' = stack ++ List.concat ((λ i, [RPN.temp_name i; "+"])
                                  <$> RPN.contributing l index).
Proof.
  induction l as [|serie l IH]; intros index g x stack g' x' stack' Hne; simpl.
  - intros [= _ _ <-]. by rewrite app_nil_r.
  - destruct (Serie_Metric serie) as [metric|]; [|by apply IH].
    destruct (rrd_metric h metric) as [rm|msg]; [|done]. simpl.
    rewrite plan_fold_name. destruct stack as [|t stack]; [done|].
    intros Hrun. apply IH in Hrun; [|done]. rewrite Hrun.
    cbn [fmap list_fmap List.concat]. by rewrite <- !app_assoc.
Qed.

(** The first input of a group opens the stack. *)
Lemma plan_fold_stack_opens h infoOnly l :
  ∀ index g x g' x' stack',
  plan_fold h "serie0" infoOnly l index g x [] = Ret (g', x', stack') →
  stack' = match RPN.contributing l index with
           | [] => []
           | i :: rest =>
             RPN.temp_name i
             :: List.concat ((λ i, [RPN.temp_name i; "+"]) <$> rest)
           end.
Proof.
  induction l as [|serie l IH]; intros index g x g' x' stack'; simpl.
  - by intros [= _ _ <-].
  - destruct (Serie_Metric serie) as [metric|]; [|by apply IH].
    destruct (rrd_metric h metric) as [rm|msg]; [|done]. simpl.
    rewrite plan_fold_name. intros Hrun.
    by apply plan_fold_stack_grows in Hrun.
Qed.

(** The expressions of a group: the folded inputs, divided for an
    average by the length of [query.Series], and the group scale applied
    to the outcome. *)
Lemma plan_group_expressions h query percentiles infoOnly p :
  plan_group h query percentiles infoOnly = Ret p →
  ∃ g x stack,
    plan_fold h "serie0" infoOnly (Query_Series query) 0 [] [] [] = Ret (g, x, stack)
    ∧ GCDef "serie0-orig"
        (Join (stack ++
               match Query_Type query with
               | OperGroupTypeAvg =>
                 [Itoa (Z.of_nat (List.length (Query_Series query))); "/"]
               | _ => []
               end)) ∈ graph p
    ∧ GCDef "serie0" (scaled_rpn "serie0-orig" (Query_Scale query)) ∈ graph p.
Proof.
  unfold plan_group. change ("serie" +:+ Itoa 0) with "serie0".
  destruct (plan_fold _ _ _ _ _ _ _ _) as [[[g x] stack]|msg]; [|done].
  simpl. intros [= <-]. exists g, x, stack. split; [done|].
  assert (Hstack : stack ++
             match Query_Type query with
             | OperGroupTypeAvg =>
               [Itoa (Z.of_nat (List.length (Query_Series query))); "/"]
             | _ => []
             end
           = match Query_Type query with
             | OperGroupTypeAvg =>
               stack ++ [Itoa (Z.of_nat (List.length (Query_Series query))); "/"]
             | _ => stack
             end).
  { destruct (Query_Type query); by rewrite ?app_nil_r. }
  rewrite Hstack. simpl. unfold rrdSetGraph. rewrite !elem_of_app.
  split; left; right; [apply list_elem_of_here|].
  apply list_elem_of_further, list_elem_of_here.
Qed.

(** The value of the expression of an average: the samples of the
    contributing series, added from left to right, divided by the length
    of [query.Series]. The divisor counts the series without a Metric as
    well. *)
Lemma Avg_expression_value h query percentiles infoOnly p env (value : nat → Q) :
  Query_Type query = OperGroupTypeAvg →
  plan_group h query percentiles infoOnly = Ret p →
  RPN.contributing (Query_Series query) 0 ≠ [] →
  (∀ i, i ∈ RPN.contributing (Query_Series query) 0 →
        env !! RPN.temp_name i = Some (value i)) →
  ∃ expr,
    GCDef "serie0-orig" expr ∈ graph p
    ∧ RPN.eval env expr
      = Some (Qdiv (RPN.total (value <$> RPN.contributing (Query_Series query) 0))
                   (Qmake (Z.of_nat (List.length (Query_Series query))) 1)).
Proof.
  intros Hty Hplan Hsome Henv.
  destruct (plan_group_expressions _ _ _ _ _ Hplan) as (g & x & stack & Hfold & Hin & _).
  rewrite Hty in Hin. eexists. split; [exact Hin|].
  apply plan_fold_stack_opens in Hfold.
  destruct (RPN.contributing (Query_Series query) 0) as [|i indices] eqn:Hc; [done|].
  rewrite Hfold. unfold RPN.eval. cbn [app].
  rewrite all_pieces_Join.
  - rewrite (run_name env _ _ _ (value i))
      by (apply temp_name_is_name || apply Henv, list_elem_of_here).
    rewrite (run_additions env value)
      by (intros j Hj; apply Henv; by apply list_elem_of_further).
    rewrite (run_number _ _ _ _ _ (parse_number_Itoa _)).
    done.
  - apply Forall_cons. split; [apply temp_name_no_comma|].
    apply Forall_app. split.
    + apply Forall_concat, Forall_fmap, Forall_forall. intros j _.
      repeat constructor. apply temp_name_no_comma.
    + repeat constructor. apply Itoa_nat_no_comma.
Qed.

(** The expression of a sum has no division. *)
Lemma Sum_expression_value h query percentiles infoOnly p env (value : nat → Q) :
  Query_Type query = OperGroupTypeSum →
  plan_group h query percentiles infoOnly = Ret p →
  RPN.contributing (Query_Series query) 0 ≠ [] →
  (∀ i, i ∈ RPN.contributing (Query_Series query) 0 →
        env !! RPN.temp_name i = Some (value i)) →
  ∃ expr,
    GCDef "serie0-orig" expr ∈ graph p
    ∧ RPN.eval env expr
      = Some (RPN.total (value <$> RPN.contributing (Query_Series query) 0)).
Proof.
  intros Hty Hplan Hsome Henv.
  destruct (plan_group_expressions _ _ _ _ _ Hplan) as (g & x & stack & Hfold & Hin & _).
  rewrite Hty in Hin. eexists. split; [exact Hin|].
  apply plan_fold_stack_opens in Hfold.
  destruct (RPN.contributing (Query_Series query) 0) as [|i indices] eqn:Hc; [done|].
  rewrite Hfold, app_nil_r. unfold RPN.eval.
  rewrite all_pieces_Join.
  - rewrite (run_name env _ _ _ (value i))
      by (apply temp_name_is_name || apply Henv, list_elem_of_here).
    rewrite <- (app_nil_r (List.concat _)).
    by rewrite (run_additions env value)
      by (intros j Hj; apply Henv; by apply list_elem_of_further).
  - apply Forall_cons. split; [apply temp_name_no_comma|].
    apply Forall_concat, Forall_fmap, Forall_forall. intros j _.
    repeat constructor. apply temp_name_no_comma.
Qed.

(** When every series has its Metric, all of them contribute, and the
    divisor of the average is the number of contributing series. *)
Lemma contributing_all l :
  ∀ index,
  Forall (λ serie, is_Some (Serie_Metric serie)) l →
  RPN.contributing l index = seq index (List.length l).
Proof.
  induction l as [|serie l IH]; intros index Hall; [done|].
  apply Forall_cons in Hall as [[m Hm] Hall]. simpl. rewrite Hm.
  f_equal. by apply IH.
Qed.

(** A series without a Metric does not contribute but is counted. *)
Lemma contributing_absent l :
  ∀ index,
  Exists (λ serie, Serie_Metric serie = None) l →
  (List.length (RPN.contributing l index) < List.length l)%nat.
Proof.
  assert (Hle : ∀ l index,
            (List.length (RPN.contributing l index) ≤ List.length l)%nat).
  { clear. induction l as [|serie l IH]; intros index; simpl; [lia|].
    destruct (Serie_Metric serie); simpl; specialize (IH (S index)); lia. }
  induction l as [|serie l IH]; intros index Hex; [by apply Exists_nil in Hex|].
  apply Exists_cons in Hex as [Hnone|Hex]; simpl.
  - rewrite Hnone. specialize (Hle l (S index)). lia.
  - destruct (Serie_Metric serie); simpl; specialize (IH (S index) Hex); lia.
Qed.

End AverageFacts.

(** ** The shape of a formatted number *)

Section FormatFacts.

Local Open Scope Z_scope.

Lemma digits_all_digits n : all_digits (digits n) = true ∧ digits n ≠ "".
Proof.
  unfold digits, NilZero.string_of_uint.
  assert (Hnil : N.to_uint (Z.to_N n) ≠ Decimal.Nil).
  { destruct (Z.to_N n); [done|]. apply DecimalPos.Unsigned.to_uint_nonnil. }
  pose proof (string_of_uint_all_digits (N.to_uint (Z.to_N n))) as Hd.
  destruct (N.to_uint (Z.to_N n)); done.
Qed.

Lemma digits_below_100 m : 0 ≤ m < 100 → (String.length (digits m) ≤ 2)%nat.
Proof.
  intros Hm.
  assert (Hall : forallb (λ k, (String.length (digits (Z.of_nat k)) <=? 2)%nat)
                   (seq 0 100) = true) by (vm_compute; reflexivity).
  rewrite forallb_forall in Hall.
  specialize (Hall (Z.to_nat m)). rewrite Z2Nat.id in Hall by lia.
  apply Nat.leb_le, Hall, in_seq. lia.
Qed.

Lemma all_digits_append a b :
  all_digits a = true → all_digits b = true → all_digits (a +:+ b) = true.
Proof.
  intros Ha Hb. induction a as [|c a IH]; simpl in *; [done|].
  apply andb_true_iff in Ha as [-> Ha]. auto.
Qed.

Lemma all_digits_zeros n : all_digits (zeros n) = true.
Proof. induction n; simpl; auto. Qed.

Lemma length_zeros n : String.length (zeros n) = n.
Proof. induction n; simpl; auto. Qed.

(** [%.0f] writes a sign and digits, without a decimal point. *)
Lemma FormatF_0_shape (p : float64) :
  is_finite p = true →
  ∃ s ip, FormatF 0 p = sign_text s +:+ ip
          ∧ all_digits ip = true ∧ ip ≠ "".
Proof.
  intros Hfin.
  assert (Hfixed : ∀ n, fixed 0 n = digits (n / 1) +:+ "") by done.
  assert (Hshape : ∀ n, all_digits (digits n +:+ "") = true ∧ digits n +:+ "" ≠ "").
  { intros n. destruct (digits_all_digits n) as [Hd Hne].
    split; [by apply all_digits_append|]. by destruct (digits n). }
  destruct p as [s|s| |s m e]; try discriminate; exists s; simpl FormatF;
    rewrite Hfixed; eexists; (split; [reflexivity|apply Hshape]).
Qed.

(** [%.2f] writes a sign, digits, a decimal point and two digits. *)
Lemma FormatF_2_shape (p : float64) :
  is_finite p = true →
  ∃ s ip fp, FormatF 2 p = sign_text s +:+ ip +:+ "." +:+ fp
             ∧ all_digits ip = true ∧ ip ≠ ""
             ∧ all_digits fp = true ∧ String.length fp = 2%nat.
Proof.
  intros Hfin.
  assert (Hfixed : ∀ n, fixed 2 n
            = digits (n / 100) +:+ "." +:+ pad_left 2 (digits (n mod 100))) by done.
  assert (Hpad : ∀ n, all_digits (pad_left 2 (digits (n mod 100))) = true
                      ∧ String.length (pad_left 2 (digits (n mod 100))) = 2%nat).
  { intros n. destruct (digits_all_digits (n mod 100)) as [Hd Hne].
    pose proof (digits_below_100 (n mod 100) ltac:(by apply Z.mod_pos_bound)) as Hl.
    unfold pad_left. split.
    - apply all_digits_append; [apply all_digits_zeros|done].
    - rewrite length_append, length_zeros. lia. }
  destruct p as [s|s| |s m e]; try discriminate; exists s; simpl FormatF;
    rewrite Hfixed; do 2 eexists; (split; [reflexivity|]).
  - destruct (digits_all_digits (0 / 100)) as [Hd Hne].
    destruct (Hpad 0) as [Hp Hl]. done.
  - destruct (digits_all_digits (scaled 2 (S754_finite s m e) / 100)) as [Hd Hne].
    destruct (Hpad (scaled 2 (S754_finite s m e))) as [Hp Hl]. done.
Qed.

End FormatFacts.

(** ** The properties on the sample data *)

Lemma single_series_evaluates_as_None_witness :
  List.length (Query_Series single_query) = 1%nat
  ∧ (rrdGetData sample_Xport sample_Graph sample_ParseFloat load_handler
       (set_Type single_query (OperGroupTypeUnknown 7)) 0 600 60 [p50] false
     = rrdGetData sample_Xport sample_Graph sample_ParseFloat load_handler
         (set_Type single_query OperGroupTypeNone) 0 600 60 [p50] false
     ∧ GetPlots sample_Xport sample_Graph sample_ParseFloat load_handler
         (set_Type single_query (OperGroupTypeUnknown 7)) 0 600 60 [p50]
       = GetPlots sample_Xport sample_Graph sample_ParseFloat load_handler
           (set_Type single_query OperGroupTypeNone) 0 600 60 [p50]
     ∧ GetValue sample_Xport sample_Graph sample_ParseFloat load_handler
         (set_Type single_query (OperGroupTypeUnknown 7)) 600 [p50]
       = GetValue sample_Xport sample_Graph sample_ParseFloat load_handler
           (set_Type single_query OperGroupTypeNone) 600 [p50]).
Proof.
  split; [reflexivity|].
  apply (single_series_evaluates_as_None sample_Xport sample_Graph
           sample_ParseFloat load_handler single_query (OperGroupTypeUnknown 7)
           0 600 60 600 [p50] false).
  reflexivity.
Defined.

Lemma evaluation_overwrites_Type_witness :
  (List.length (Query_Series single_query) = 1%nat
   ∧ Query_Type single_query ≠ OperGroupTypeNone)
  ∧ Query_Type
      (GetPlots sample_Xport sample_Graph sample_ParseFloat load_handler
         single_query 0 600 60 [p50]).1 = OperGroupTypeNone
  ∧ Query_Type
      (GetValue sample_Xport sample_Graph sample_ParseFloat load_handler
         single_query 600 [p50]).1 = OperGroupTypeNone.
Proof.
  assert (Hlen : List.length (Query_Series single_query) = 1%nat) by reflexivity.
  assert (Hty : Query_Type single_query ≠ OperGroupTypeNone) by discriminate.
  split; [by split|].
  destruct (evaluation_overwrites_Type sample_Xport sample_Graph
              sample_ParseFloat load_handler single_query 0 600 60 600 [p50]
              Hlen Hty) as [(Hp & _) (Hv & _)].
  by split.
Defined.

Lemma AddOrigin_failure_inserts_nothing_witness :
  AddOrigin ConnectorHandlers empty_catalog "local" ∅
  = (empty_catalog, (None, Some "missing backend type"))
  ∧ AddOrigin ConnectorHandlers empty_catalog "local" {["type" := "graphite"]}
    = (empty_catalog, (None, Some "unknown `graphite' backend type"))
  ∧ AddOrigin ConnectorHandlers empty_catalog "local" {["type" := "rrd"]}
    = (empty_catalog, (None, Some "missing `path' mandatory connector setting")).
Proof.
  destruct (AddOrigin_failure_inserts_nothing ConnectorHandlers empty_catalog
              "local" ∅) as (H1 & _ & _).
  destruct (AddOrigin_failure_inserts_nothing ConnectorHandlers empty_catalog
              "local" {["type" := "graphite"]}) as (_ & H2 & _).
  destruct (AddOrigin_failure_inserts_nothing ConnectorHandlers empty_catalog
              "local" {["type" := "rrd"]}) as (_ & _ & H3).
  split_and!.
  - apply H1. reflexivity.
  - apply (H2 "graphite"); reflexivity.
  - apply (H3 "rrd" rrd_constructor (mkOrigin "local" ∅ None)); reflexivity.
Defined.
